(** * dwarfs: the metadata core ([src/dwarfs/metadata_v2.cpp])

    A shallow embedding of the class [metadata_v2_] and of the
    properties of its lookups, its size and attribute computations,
    its tree walker and its mode rendering.

    Conventions of the embedding.
    - The thrift-frozen record [meta_] is a record of lists, one per
      table.  [mapFrozen] (the thrift library) overlays these typed
      views on the byte buffer; the embedding starts from the views.
    - Machine integers are [Z]; every conversion to a fixed width that
      the C++ performs is written out ([u16], [u32], [u64], [s32],
      [s64]).
    - A table read outside the table and a signed overflow are
      undefined behaviour in the C++; here they are the outcome
      [Undefined], kept apart from the value "not found" ([Ok None]).
    - Loops whose trip count is not a structural argument take fuel;
      running out of it is the outcome [OutOfFuel]. *)

From Stdlib Require Import ZArith List String Ascii Bool Lia DecimalString.
Import ListNotations.

Local Open Scope Z_scope.

(** ** Fixed-width integers *)

Module Int.

Definition u16 (x : Z) : Z := x mod 2 ^ 16.
Definition u32 (x : Z) : Z := x mod 2 ^ 32.
Definition u64 (x : Z) : Z := x mod 2 ^ 64.

(** Conversion to a signed width (two's complement). *)
Definition s32 (x : Z) : Z := (x + 2 ^ 31) mod 2 ^ 32 - 2 ^ 31.
Definition s64 (x : Z) : Z := (x + 2 ^ 63) mod 2 ^ 64 - 2 ^ 63.

Definition INT_MIN : Z := - 2 ^ 31.
Definition INT_MAX : Z := 2 ^ 31 - 1.
Definition INT64_MAX : Z := 2 ^ 63 - 1.

Definition is_int (x : Z) : bool := (INT_MIN <=? x) && (x <=? INT_MAX).

End Int.
Import Int.

(** ** Outcomes *)

Inductive table : Set :=
| T_entries | T_entry_index | T_modes | T_names | T_directories
| T_chunk_index | T_chunks | T_link_index | T_links.

Inductive fault : Set :=
| OutOfBounds (t : table)
| SignedOverflow.

Inductive Res (A : Type) : Type :=
| Ok (a : A)
| Undefined (f : fault)
| OutOfFuel.

Arguments Ok {A} a.
Arguments Undefined {A} f.
Arguments OutOfFuel {A}.

Definition bind {A B : Type} (c : Res A) (k : A -> Res B) : Res B :=
  match c with
  | Ok a => k a
  | Undefined f => Undefined f
  | OutOfFuel => OutOfFuel
  end.

Declare Scope res_scope.
Delimit Scope res_scope with res.
Notation "x <- c ;; k" := (bind c (fun x => k))
  (at level 61, c at next level, right associativity) : res_scope.
Local Open Scope res_scope.

Definition is_ok {A : Type} (r : Res A) : bool :=
  match r with Ok _ => true | _ => false end.

(** ** Data model: the tables of the frozen record *)

(** An entry; [mode] is an index into the modes table (see
    [entry_mode]), [name_index] one into the names table. *)
Record entry : Set := mk_entry {
  name_index : Z;
  mode : Z;
  inode : Z
}.

Record directory : Set := mk_directory {
  first_entry : Z;
  entry_count : Z
}.

Record chunk : Set := mk_chunk {
  block : Z;
  offset : Z;
  size : Z
}.

Record metadata : Set := mk_metadata {
  entries : list entry;
  entry_index : list Z;
  modes : list Z;
  names : list string;
  directories : list directory;
  chunk_index : list Z;
  chunks : list chunk;
  link_index : list Z;
  links : list string;
  chunk_index_offset : Z;
  link_index_offset : Z
}.

(** [table[i]]: the frozen views do not check the index. *)
Definition at_ {A : Type} (t : table) (l : list A) (i : Z) : Res A :=
  if i <? 0 then Undefined (OutOfBounds t)
  else match nth_error l (Z.to_nat i) with
       | Some x => Ok x
       | None => Undefined (OutOfBounds t)
       end.

(** ** <sys/stat.h>: the mode bits (POSIX values, octal in the header) *)

Module Stat.

Definition S_IFMT  : Z := 61440.  (* 0170000 *)
Definition S_IFDIR : Z := 16384.  (* 0040000 *)
Definition S_IFREG : Z := 32768.  (* 0100000 *)
Definition S_IFLNK : Z := 40960.  (* 0120000 *)

Definition S_ISUID : Z := 2048.   (* 04000 *)
Definition S_ISGID : Z := 1024.   (* 02000 *)
Definition S_ISVTX : Z := 512.    (* 01000 *)

Definition S_IRUSR : Z := 256.
Definition S_IWUSR : Z := 128.
Definition S_IXUSR : Z := 64.
Definition S_IRGRP : Z := 32.
Definition S_IWGRP : Z := 16.
Definition S_IXGRP : Z := 8.
Definition S_IROTH : Z := 4.
Definition S_IWOTH : Z := 2.
Definition S_IXOTH : Z := 1.

Definition S_ISDIR (m : Z) : bool := Z.land m S_IFMT =? S_IFDIR.
Definition S_ISREG (m : Z) : bool := Z.land m S_IFMT =? S_IFREG.
Definition S_ISLNK (m : Z) : bool := Z.land m S_IFMT =? S_IFLNK.

(** [mode & FLAG] used as a condition. *)
Definition has (m flag : Z) : bool := negb (Z.land m flag =? 0).

(** [struct stat], the fields of the Linux layout. *)
Record stat : Set := mk_stat {
  st_dev : Z;
  st_ino : Z;
  st_nlink : Z;
  st_mode : Z;
  st_uid : Z;
  st_gid : Z;
  st_rdev : Z;
  st_size : Z;
  st_blksize : Z;
  st_blocks : Z;
  st_atime : Z;
  st_mtime : Z;
  st_ctime : Z
}.

(** [memset(stbuf, 0, sizeof( *stbuf))] *)
Definition zeroed : stat := mk_stat 0 0 0 0 0 0 0 0 0 0 0 0 0.

Definition set_st_mode (v : Z) (s : stat) : stat :=
  mk_stat (st_dev s) (st_ino s) (st_nlink s) v (st_uid s) (st_gid s)
          (st_rdev s) (st_size s) (st_blksize s) (st_blocks s)
          (st_atime s) (st_mtime s) (st_ctime s).

Definition set_st_size (v : Z) (s : stat) : stat :=
  mk_stat (st_dev s) (st_ino s) (st_nlink s) (st_mode s) (st_uid s)
          (st_gid s) (st_rdev s) v (st_blksize s) (st_blocks s)
          (st_atime s) (st_mtime s) (st_ctime s).

Definition set_st_ino (v : Z) (s : stat) : stat :=
  mk_stat (st_dev s) v (st_nlink s) (st_mode s) (st_uid s) (st_gid s)
          (st_rdev s) (st_size s) (st_blksize s) (st_blocks s)
          (st_atime s) (st_mtime s) (st_ctime s).

Definition set_st_blocks (v : Z) (s : stat) : stat :=
  mk_stat (st_dev s) (st_ino s) (st_nlink s) (st_mode s) (st_uid s)
          (st_gid s) (st_rdev s) (st_size s) (st_blksize s) v
          (st_atime s) (st_mtime s) (st_ctime s).

End Stat.
Import Stat.

(** [const uint16_t READ_ONLY_MASK = ~(S_IWUSR | S_IWGRP | S_IWOTH);] *)
Definition READ_ONLY_MASK : Z :=
  u16 (Z.lnot (Z.lor (Z.lor S_IWUSR S_IWGRP) S_IWOTH)).

(** ** The class [metadata_v2_] *)

(** The data members that the operations read: the mapped record, the
    cached root and the two cached offsets (both [const int]). *)
Record metadata_v2_ : Set := mk_metadata_v2_ {
  meta_ : metadata;
  root_ : entry;
  inode_offset_ : Z;
  chunk_index_offset_ : Z
}.

(** The constructor: [root_(meta_.entries()[meta_.entry_index()[0]])],
    [inode_offset_(inode_offset)],
    [chunk_index_offset_(meta_.chunk_index_offset())].  Its body only
    logs the thawed record and the schema. *)
Definition metadata_v2_ctor (meta : metadata) (inode_offset : Z)
  : Res metadata_v2_ :=
  k <- at_ T_entry_index (entry_index meta) 0 ;;
  root <- at_ T_entries (entries meta) k ;;
  Ok (mk_metadata_v2_ meta root inode_offset
                      (s32 (chunk_index_offset meta))).

Section Operations.

Variable self : metadata_v2_.

Local Abbreviation meta := (meta_ self).

(** [uint16_t entry_mode(entry_view entry)] *)
Definition entry_mode (e : entry) : Res Z :=
  md <- at_ T_modes (modes meta) (mode e) ;;
  Ok (u16 md).

(** [std::string_view entry_name(entry_view entry)] *)
Definition entry_name (e : entry) : Res string :=
  at_ T_names (names meta) (name_index e).

(** [std::string_view link_name(entry_view entry)]; the difference
    is taken on [uint32_t]. *)
Definition link_name (e : entry) : Res string :=
  li <- at_ T_link_index (link_index meta) (inode e) ;;
  at_ T_links (links meta) (u32 (li - link_index_offset meta)).

(** The loop of [reg_file_size]:
    [while (cur < end) size += meta_.chunks()[cur++].size();]
    unrolled over its trip count [end - cur]. *)
Fixpoint sum_chunks (n : nat) (cur : Z) (sz : Z) : Res Z :=
  match n with
  | O => Ok sz
  | S n' =>
      c <- at_ T_chunks (chunks meta) cur ;;
      sum_chunks n' (cur + 1) (u64 (sz + size c))
  end.

(** [size_t reg_file_size(entry_view entry)] *)
Definition reg_file_size (e : entry) : Res Z :=
  let ino := u32 (inode e - chunk_index_offset_ self) in
  c <- at_ T_chunk_index (chunk_index meta) ino ;;
  let cur := u32 c in
  d <- at_ T_chunk_index (chunk_index meta) (u32 (ino + 1)) ;;
  let end_ := u32 d in
  sum_chunks (Z.to_nat (end_ - cur)) cur 0.

(** [size_t link_size(entry_view entry)] *)
Definition link_size (e : entry) : Res Z :=
  s <- link_name e ;;
  Ok (Z.of_nat (String.length s)).

(** [size_t file_size(entry_view entry, uint16_t mode)] *)
Definition file_size (e : entry) (md : Z) : Res Z :=
  let md := u16 md in
  if S_ISREG md then reg_file_size e
  else if S_ISLNK md then link_size e
  else Ok 0.

(** [directory_view getdir(entry_view entry)] *)
Definition getdir (e : entry) : Res directory :=
  at_ T_directories (directories meta) (inode e).

(** [std::optional<entry_view> get_entry(int inode)]; the
    subtraction is on [int], the table size is converted to [int]. *)
Definition get_entry (ino : Z) : Res (option entry) :=
  let d := ino - inode_offset_ self in
  if is_int d then
    if (0 <=? d) && (d <? s32 (Z.of_nat (List.length (entry_index meta))))
    then
      k <- at_ T_entry_index (entry_index meta) d ;;
      e <- at_ T_entries (entries meta) k ;;
      Ok (Some e)
    else Ok None
  else Undefined SignedOverflow.

(** [std::string_view::compare]: negative, zero or positive, by the
    byte-wise lexicographic order. *)
Definition sv_compare (a b : string) : Z :=
  match String.compare a b with
  | Lt => -1
  | Eq => 0
  | Gt => 1
  end.

(** An [int] used where a [bool] is expected. *)
Definition int_to_bool (x : Z) : bool := negb (x =? 0).

(** [std::lower_bound] over an integer range, as the standard
    libraries write it: halve [len] while it is positive, moving
    [first] past [mid] when [comp( *mid, value)] holds. *)
Fixpoint lower_bound (fuel : nat) (comp : Z -> Res bool)
         (first len : Z) {struct fuel} : Res Z :=
  if 0 <? len then
    match fuel with
    | O => OutOfFuel
    | S fuel' =>
        let half := Z.shiftr len 1 in
        let mid := first + half in
        b <- comp mid ;;
        if b then lower_bound fuel' comp (mid + 1) (len - half - 1)
        else lower_bound fuel' comp first half
    end
  else Ok first.

(** The comparator handed to [std::lower_bound] by [find]: the
    lambda returns the [int] of [compare], which [lower_bound] uses
    as a [bool]. *)
Definition find_comp (name : string) (it : Z) : Res bool :=
  e <- at_ T_entries (entries meta) it ;;
  n <- entry_name e ;;
  Ok (int_to_bool (sv_compare n name)).

(** [find(directory_view dir, std::string_view name)] *)
Definition find_dir (dir : directory) (name : string)
  : Res (option entry) :=
  let first := first_entry dir in
  let last := u32 (first + entry_count dir) in
  it <- lower_bound (Z.to_nat (last - first)) (find_comp name)
                    first (last - first) ;;
  if negb (it =? last) then
    cand <- at_ T_entries (entries meta) it ;;
    n <- entry_name cand ;;
    if String.eqb n name then Ok (Some cand) else Ok None
  else Ok None.

(** The leading loop of [find(const char *path)]:
    [while ( *path and *path == '/') ++path;] *)
Fixpoint skip_slashes (path : string) : string :=
  match path with
  | String c rest => if Ascii.eqb c "/" then skip_slashes rest else path
  | EmptyString => path
  end.

(** [strchr(path, '/')] together with the component before it: the
    bytes up to the first ['/'], and what follows that ['/'] when
    there is one ([next + 1]). *)
Fixpoint split_component (path : string) : string * option string :=
  match path with
  | EmptyString => (EmptyString, None)
  | String c rest =>
      if Ascii.eqb c "/" then (EmptyString, Some rest)
      else let (comp, next) := split_component rest in
           (String c comp, next)
  end.

(** The main loop of [find(const char *path)]. *)
Fixpoint find_loop (fuel : nat) (e : entry) (path : string)
         {struct fuel} : Res (option entry) :=
  match path with
  | EmptyString => Ok (Some e)
  | String _ _ =>
      match fuel with
      | O => OutOfFuel
      | S fuel' =>
          let (comp, next) := split_component path in
          dir <- getdir e ;;
          r <- find_dir dir comp ;;
          match r with
          | None => Ok None
          | Some e' =>
              find_loop fuel' e'
                        (match next with
                         | Some rest => rest
                         | None => EmptyString
                         end)
          end
      end
  end.

(** [std::optional<entry_view> find(const char* path)]; every turn
    of the loop consumes at least one byte of the path. *)
Definition find_path (path : string) : Res (option entry) :=
  let p := skip_slashes path in
  find_loop (String.length p) (root_ self) p.

(** [std::optional<entry_view> find(int inode)] *)
Definition find_inode (ino : Z) : Res (option entry) := get_entry ino.

(** [std::optional<entry_view> find(int inode, const char *name)] *)
Definition find_child (ino : Z) (name : string) : Res (option entry) :=
  r <- get_entry ino ;;
  match r with
  | Some e => dir <- getdir e ;; find_dir dir name
  | None => Ok None
  end.

(** [walk(entry_view entry, func)]: the visitor is a state
    transformer; the inner loop runs [end - cur] times. *)
Fixpoint walk_entry {St : Type} (fuel : nat) (e : entry)
         (func : entry -> St -> St) (s : St) {struct fuel} : Res St :=
  match fuel with
  | O => OutOfFuel
  | S fuel' =>
      let s1 := func e s in
      if S_ISDIR (mode e) then
        dir <- getdir e ;;
        let cur := first_entry dir in
        let end_ := u32 (cur + entry_count dir) in
        (fix loop (n : nat) (cur : Z) (s : St) {struct n} : Res St :=
           match n with
           | O => Ok s
           | S n' =>
               c <- at_ T_entries (entries meta) cur ;;
               s' <- walk_entry fuel' c func s ;;
               loop n' (cur + 1) s'
           end) (Z.to_nat (end_ - cur)) cur s1
      else Ok s1
  end.

(** [walk(func)] *)
Definition walk {St : Type} (fuel : nat) (func : entry -> St -> St)
           (s : St) : Res St :=
  walk_entry fuel (root_ self) func s.

(** The visitor that records its calls, in order. *)
Definition record_visit (e : entry) (seen : list entry) : list entry :=
  seen ++ [e].

(** [int getattr(entry_view entry, struct ::stat* stbuf)]: the
    buffer is an in-out argument.  [st_size] is [off_t] (signed 64
    bits), [st_ino] receives a sum taken on [uint32_t], the block
    count is a signed division. *)
Definition getattr (e : entry) (stbuf : stat) : Res (Z * stat) :=
  let stbuf := zeroed in
  md <- entry_mode e ;;
  let stbuf := set_st_mode (Z.land md READ_ONLY_MASK) stbuf in
  sz <- file_size e md ;;
  let stbuf := set_st_size (s64 sz) stbuf in
  let stbuf := set_st_ino (u32 (inode e + inode_offset_ self)) stbuf in
  if st_size stbuf + 511 <=? INT64_MAX then
    let stbuf :=
      set_st_blocks (Z.quot (st_size stbuf + 511) 512) stbuf in
    Ok (0, stbuf)
  else Undefined SignedOverflow.

End Operations.

(** [std::string modestring(uint16_t mode)]: one character per
    [oss << ...] statement, in order. *)
Definition modestring (md : Z) : string :=
  let md := u16 md in
  String (if has md S_ISUID then "U" else "-")
 (String (if has md S_ISGID then "G" else "-")
 (String (if has md S_ISVTX then "S" else "-")
 (String (if S_ISDIR md then "d" else if S_ISLNK md then "l" else "-")
 (String (if has md S_IRUSR then "r" else "-")
 (String (if has md S_IWUSR then "w" else "-")
 (String (if has md S_IXUSR then "x" else "-")
 (String (if has md S_IRGRP then "r" else "-")
 (String (if has md S_IWGRP then "w" else "-")
 (String (if has md S_IXGRP then "x" else "-")
 (String (if has md S_IROTH then "r" else "-")
 (String (if has md S_IWOTH then "w" else "-")
 (String (if has md S_IXOTH then "x" else "-")
  EmptyString)))))))))))).

(** ** Sample records *)

Module Samples.

Definition mode_dir : Z := 16877.   (* 040755 *)
Definition mode_reg : Z := 33188.   (* 0100644 *)
Definition mode_lnk : Z := 41471.   (* 0120777 *)

(** A root directory holding the empty regular files a, b and c. *)
Definition abc : metadata :=
  mk_metadata
    [ mk_entry 0 0 0; mk_entry 1 1 1; mk_entry 2 1 2; mk_entry 3 1 3 ]
    [ 0; 1; 2; 3 ]
    [ mode_dir; mode_reg ]
    [ ""%string; "a"%string; "b"%string; "c"%string ]
    [ mk_directory 1 3 ]
    [ 0; 0; 0; 0 ]
    [ ]
    [ ]
    [ ]
    1 4.

(** /a/b: a directory a holding the regular file b. *)
Definition nested : metadata :=
  mk_metadata
    [ mk_entry 0 0 0; mk_entry 1 0 1; mk_entry 2 1 2 ]
    [ 0; 1; 2 ]
    [ mode_dir; mode_reg ]
    [ ""%string; "a"%string; "b"%string ]
    [ mk_directory 1 1; mk_directory 2 1 ]
    [ 0; 0 ]
    [ ]
    [ ]
    [ ]
    2 3.

(** /big (three chunks) and /x/y/z, a symbolic link to ../a. *)
Definition tree : metadata :=
  mk_metadata
    [ mk_entry 0 0 0; mk_entry 1 1 3; mk_entry 2 0 1;
      mk_entry 3 0 2; mk_entry 4 2 4 ]
    [ 0; 2; 3; 1; 4 ]
    [ mode_dir; mode_reg; mode_lnk ]
    [ ""%string; "big"%string; "x"%string; "y"%string; "z"%string ]
    [ mk_directory 1 2; mk_directory 3 1; mk_directory 4 1 ]
    [ 0; 3 ]
    [ mk_chunk 0 0 4096; mk_chunk 0 4096 4096; mk_chunk 1 0 17 ]
    [ 4; 4; 4; 4; 4 ]
    [ "../a"%string ]
    3 4.

(** A record whose only directory claims five children in an entries
    table of length one. *)
Definition overrun : metadata :=
  mk_metadata
    [ mk_entry 0 0 0 ]
    [ 0 ]
    [ mode_dir ]
    [ ""%string ]
    [ mk_directory 1 5 ]
    [ 0 ]
    [ ]
    [ ]
    [ ]
    1 1.

(** The handles the constructor builds for them (see
    [Samples_ctor] below). *)
Definition abc_h : metadata_v2_ :=
  mk_metadata_v2_ abc (mk_entry 0 0 0) 0 1.
Definition nested_h : metadata_v2_ :=
  mk_metadata_v2_ nested (mk_entry 0 0 0) 0 2.
Definition tree_h : metadata_v2_ :=
  mk_metadata_v2_ tree (mk_entry 0 0 0) 1 3.
Definition overrun_h : metadata_v2_ :=
  mk_metadata_v2_ overrun (mk_entry 0 0 0) 0 1.

End Samples.

(** ** Vocabulary of the statements *)

(** A path made of ['/'] characters only (the empty path included). *)
Fixpoint all_slashes (path : string) : bool :=
  match path with
  | EmptyString => true
  | String c rest => Ascii.eqb c "/" && all_slashes rest
  end.

(** [k] characters ['/']. *)
Fixpoint slashes (k : nat) : string :=
  match k with
  | O => EmptyString
  | S k' => String "/" (slashes k')
  end.

(** The last byte of the path is ['/']. *)
Fixpoint ends_with_slash (path : string) : bool :=
  match path with
  | EmptyString => false
  | String c EmptyString => Ascii.eqb c "/"
  | String _ rest => ends_with_slash rest
  end.

(** The sum of [chunks[j].size] for [j] in the half-open range
    [[b, e)], as the size law words it. *)
Definition chunk_range_sum (meta : metadata) (b e : Z) : Z :=
  fold_right Z.add 0
    (map size (firstn (Z.to_nat (e - b)) (skipn (Z.to_nat b) (chunks meta)))).

(** The three write bits. *)
Definition write_bits : Z := Z.lor (Z.lor S_IWUSR S_IWGRP) S_IWOTH.

(** The children range of a directory lies in the entries table. *)
Definition extent_ok (meta : metadata) (d : directory) : Prop :=
  0 <= first_entry d /\ 0 <= entry_count d /\
  first_entry d + entry_count d <= Z.of_nat (List.length (entries meta)).

(** The entry at position [it] of the entries table bears the name
    [n]. *)
Definition child_name (h : metadata_v2_) (it : Z) (n : string) : Prop :=
  exists e, at_ T_entries (entries (meta_ h)) it = Ok e /\
            entry_name h e = Ok n.

(** The four leading indicators of a mode string and one permission
    triple. *)
Definition indicators (md : Z) : string :=
  String (if has md S_ISUID then "U" else "-")
 (String (if has md S_ISGID then "G" else "-")
 (String (if has md S_ISVTX then "S" else "-")
 (String (if S_ISDIR md then "d" else if S_ISLNK md then "l" else "-")
  EmptyString))).

Definition rwx (md r w x : Z) : string :=
  String (if has md r then "r" else "-")
 (String (if has md w then "w" else "-")
 (String (if has md x then "x" else "-")
  EmptyString)).

(** ** Further vocabulary *)

(** The byte ['/'] occurs in the string. *)
Fixpoint has_slash (s : string) : bool :=
  match s with
  | EmptyString => false
  | String c rest => Ascii.eqb c "/" || has_slash rest
  end.

(** The main loop of [find(const char *path)] started at the entry
    [e] instead of the root: the resolution of [q] relative to [e]. *)
Definition find_from (h : metadata_v2_) (e : entry) (q : string)
  : Res (option entry) :=
  find_loop h (String.length q) e q.

(** The visitor applied to the entries of a list, in order. *)
Definition visit_all {St : Type} (func : entry -> St -> St)
           (es : list entry) (s : St) : St :=
  fold_left (fun acc x => func x acc) es s.

(** The children of a directory, in stored order: the entries at
    [[first_entry, first_entry + entry_count)]. *)
Definition children (meta : metadata) (dir : directory) : list entry :=
  firstn (Z.to_nat (entry_count dir))
         (skipn (Z.to_nat (first_entry dir)) (entries meta)).

Section WalkLoop.

Context {St : Type}.
Variable h : metadata_v2_.
Variable rec : entry -> St -> Res St.

(** The inner loop of [walk(entry_view, func)],
    [while (cur < end) walk(meta_.entries()[cur++], func);], over its
    trip count, with the recursive call as an argument. *)
Fixpoint walk_loop (n : nat) (cur : Z) (s : St) : Res St :=
  match n with
  | O => Ok s
  | S n' =>
      c <- at_ T_entries (entries (meta_ h)) cur ;;
      s' <- rec c s ;;
      walk_loop n' (cur + 1) s'
  end.

End WalkLoop.

(** A permission triple whose write position is dashed. *)
Definition rx (md r x : Z) : string :=
  String (if has md r then "r" else "-")
 (String "-"
 (String (if has md x then "x" else "-")
  EmptyString)).

(** ** The dumper *)

(** What [dump] does to the outside, in order: text sent to the
    stream and calls of the per-inode callback [icb]. *)
Inductive event : Set :=
| Write (text : string)
| Callback (indent : string) (ino : Z).

(** [os << n] for an unsigned integer: its decimal digits. *)
Definition dec (n : Z) : string :=
  NilZero.string_of_uint (N.to_uint (Z.to_N n)).

(** The newline character. *)
Definition nl : string := String "010" EmptyString.

(** [os << text] *)
Definition put (text : string) (tr : list event) : list event :=
  tr ++ [Write text].

Section DumpLoop.

Variable h : metadata_v2_.
Variable rec : string -> entry -> list event -> Res (list event).

(** The loop of [dump(os, indent, directory_view dir, icb)]:
    [for (size_t i = 0; i < count; ++i)
       dump(os, indent, meta_.entries()[first + i], icb);] *)
Fixpoint dump_loop (indent : string) (first : Z) (n : nat) (i : Z)
         (tr : list event) : Res (list event) :=
  match n with
  | O => Ok tr
  | S n' =>
      c <- at_ T_entries (entries (meta_ h)) (first + i) ;;
      tr' <- rec indent c tr ;;
      dump_loop indent first n' (i + 1) tr'
  end.

(** [dump(os, indent, directory_view dir, icb)] *)
Definition dump_dir (indent : string) (dir : directory)
           (tr : list event) : Res (list event) :=
  let count := entry_count dir in
  let first := first_entry dir in
  let tr := put (") entries" ++ nl)
              (put (dec count) (put "(" (put indent tr))) in
  dump_loop indent first (Z.to_nat count) 0 tr.

End DumpLoop.

(** [dump(os, indent, entry_view entry, icb)]; the chunk range is
    read at [inode - chunk_index_offset_] and the index after it,
    both taken on [uint32_t]. *)
Fixpoint dump_entry (h : metadata_v2_) (fuel : nat) (indent : string)
         (e : entry) (tr : list event) {struct fuel} : Res (list event) :=
  match fuel with
  | O => OutOfFuel
  | S fuel' =>
      md <- entry_mode h e ;;
      let ino := inode e in
      let tr := put (modestring md)
                  (put "> " (put (dec ino) (put "<inode:" (put indent tr)))) in
      tr <- (if 0 <? ino
             then n <- entry_name h e ;; Ok (put n (put " " tr))
             else Ok tr) ;;
      if S_ISREG md then
        b <- at_ T_chunk_index (chunk_index (meta_ h))
                 (u32 (ino - chunk_index_offset_ h)) ;;
        let beg := u32 b in
        d <- at_ T_chunk_index (chunk_index (meta_ h))
                 (u32 (u32 (ino - chunk_index_offset_ h) + 1)) ;;
        let end_ := u32 d in
        let tr := put "]" (put (dec end_)
                    (put ", " (put (dec beg) (put " [" tr)))) in
        sz <- file_size h e md ;;
        let tr := put nl (put (dec sz) (put " " tr)) in
        Ok (tr ++ [Callback (indent ++ "  ") ino])
      else if S_ISDIR md then
        dir <- at_ T_directories (directories (meta_ h)) ino ;;
        dump_dir h (fun ind c t => dump_entry h fuel' ind c t)
                 (indent ++ "  ") dir tr
      else if S_ISLNK md then
        l <- link_name h e ;;
        Ok (put nl (put l (put " -> " tr)))
      else Ok (put (" (unknown type)" ++ nl) tr)
  end.

(** [dump(os, icb)] *)
Definition dump (h : metadata_v2_) (fuel : nat) (tr : list event)
  : Res (list event) :=
  dump_entry h fuel "" (root_ h) tr.

(** The calls of the callback in a trace, in order: indent and inode. *)
Fixpoint callbacks (tr : list event) : list (string * Z) :=
  match tr with
  | [] => []
  | Write _ :: rest => callbacks rest
  | Callback indent ino :: rest => (indent, ino) :: callbacks rest
  end.

(** The stored mode word of the entry is that of a regular file. *)
Definition regular_entry (h : metadata_v2_) (e : entry) : Prop :=
  exists md, entry_mode h e = Ok md /\ S_ISREG md = true.

Module MoreSamples.

(** A root whose mode index, 16384, carries the directory type bits
    that [walk] looks at; its children d and e have the mode index 0. *)
Definition flat : metadata :=
  mk_metadata
    [ mk_entry 0 16384 0; mk_entry 1 0 1; mk_entry 2 0 2 ]
    [ 0; 1; 2 ]
    [ Samples.mode_reg ]
    [ ""%string; "d"%string; "e"%string ]
    [ mk_directory 1 2 ]
    [ 0; 0; 0 ]
    [ ]
    [ ]
    [ ]
    1 3.

Definition flat_h : metadata_v2_ :=
  mk_metadata_v2_ flat (mk_entry 0 16384 0) 0 1.

End MoreSamples.

Import Samples.
Import MoreSamples.

(** * Properties *)

(** ** Integers, outcomes and table reads *)

Lemma u16_range x : 0 <= u16 x < 2 ^ 16.
Proof. unfold u16. apply Z.mod_pos_bound. lia. Qed.

Lemma u32_range x : 0 <= u32 x < 2 ^ 32.
Proof. unfold u32. apply Z.mod_pos_bound. lia. Qed.

Lemma u64_range x : 0 <= u64 x < 2 ^ 64.
Proof. unfold u64. apply Z.mod_pos_bound. lia. Qed.

Lemma u16_small x : 0 <= x < 2 ^ 16 -> u16 x = x.
Proof. intros. unfold u16. apply Z.mod_small. lia. Qed.

Lemma u32_small x : 0 <= x < 2 ^ 32 -> u32 x = x.
Proof. intros. unfold u32. apply Z.mod_small. lia. Qed.

Lemma u64_small x : 0 <= x < 2 ^ 64 -> u64 x = x.
Proof. intros. unfold u64. apply Z.mod_small. lia. Qed.

Lemma s32_small x : - 2 ^ 31 <= x < 2 ^ 31 -> s32 x = x.
Proof. intros. unfold s32. rewrite Z.mod_small; lia. Qed.

Lemma s64_small x : - 2 ^ 63 <= x < 2 ^ 63 -> s64 x = x.
Proof. intros. unfold s64. rewrite Z.mod_small; lia. Qed.

Lemma u64_add_idem a b : u64 (u64 a + b) = u64 (a + b).
Proof. unfold u64. apply Zplus_mod_idemp_l. Qed.

Lemma bind_Ok {A B : Type} (c : Res A) (k : A -> Res B) (b : B) :
  bind c k = Ok b -> exists a, c = Ok a /\ k a = Ok b.
Proof. destruct c; simpl; intros H; try discriminate. eauto. Qed.

Lemma at_Ok {A : Type} (t : table) (l : list A) (i : Z) (x : A) :
  at_ t l i = Ok x <-> 0 <= i /\ nth_error l (Z.to_nat i) = Some x.
Proof.
  unfold at_. destruct (Z.ltb_spec i 0).
  - split; [discriminate | lia].
  - destruct (nth_error l (Z.to_nat i)) eqn:E; split; intros H1.
    + inversion H1; subst; auto.
    + destruct H1 as [_ H1]. inversion H1; subst; reflexivity.
    + discriminate.
    + destruct H1; discriminate.
Qed.

Lemma at_in_range {A : Type} (t : table) (l : list A) (i : Z) :
  0 <= i < Z.of_nat (List.length l) -> exists x, at_ t l i = Ok x.
Proof.
  intros H. unfold at_. destruct (Z.ltb_spec i 0); [lia|].
  destruct (nth_error l (Z.to_nat i)) eqn:E; eauto.
  apply nth_error_None in E. lia.
Qed.

Lemma at_out_of_range {A : Type} (t : table) (l : list A) (i : Z) :
  ~ (0 <= i < Z.of_nat (List.length l)) -> at_ t l i = Undefined (OutOfBounds t).
Proof.
  intros H. unfold at_. destruct (Z.ltb_spec i 0); [reflexivity|].
  destruct (nth_error l (Z.to_nat i)) eqn:E; [|reflexivity].
  assert (Hlt : (Z.to_nat i < List.length l)%nat)
    by (apply nth_error_Some; congruence).
  lia.
Qed.

Lemma Samples_ctor :
  metadata_v2_ctor abc 0 = Ok abc_h /\
  metadata_v2_ctor nested 0 = Ok nested_h /\
  metadata_v2_ctor tree 1 = Ok tree_h /\
  metadata_v2_ctor overrun 0 = Ok overrun_h.
Proof. repeat split. Qed.

(** ** The mode string *)

(** C9, as the code has it: for every mode word the rendered string
    is the four indicators (setuid, setgid, sticky, type) followed by
    the three rwx triples of owner, group and others, which makes 13
    characters, not 12. *)
Theorem modestring_length (md : Z) :
  modestring md =
    (indicators (u16 md) ++ rwx (u16 md) S_IRUSR S_IWUSR S_IXUSR
       ++ rwx (u16 md) S_IRGRP S_IWGRP S_IXGRP
       ++ rwx (u16 md) S_IROTH S_IWOTH S_IXOTH)%string
  /\ String.length (indicators (u16 md)) = 4%nat
  /\ (forall r w x, String.length (rwx (u16 md) r w x) = 3%nat)
  /\ String.length (modestring md) = 13%nat.
Proof. repeat split. Qed.

(** C9, the claim as stated fails: the mode 0100644 renders as a
    string of 13 characters. *)
Lemma modestring_not_12 :
  modestring 33188 = "----rw-r--r--"%string /\
  String.length (modestring 33188) <> 12%nat.
Proof. split; [reflexivity | discriminate]. Qed.

(** ** The constructor *)

Lemma ctor_inv meta off h :
  metadata_v2_ctor meta off = Ok h ->
  exists k,
    at_ T_entry_index (entry_index meta) 0 = Ok k /\
    at_ T_entries (entries meta) k = Ok (root_ h) /\
    meta_ h = meta /\ inode_offset_ h = off /\
    chunk_index_offset_ h = s32 (chunk_index_offset meta).
Proof.
  unfold metadata_v2_ctor. intros H.
  apply bind_Ok in H. destruct H as [k [Hk H]].
  apply bind_Ok in H. destruct H as [r [Hr H]].
  inversion H; subst; clear H. simpl. eauto 10.
Qed.

(** C5, as the code has it: the constructor validates nothing.  It
    reads the root, [entries[entry_index[0]]], and caches the two
    offsets; whenever that one read is in bounds it yields a handle on
    the record as it is, whatever the directories table declares. *)
Theorem ctor_reads_root_only meta off k root :
  at_ T_entry_index (entry_index meta) 0 = Ok k ->
  at_ T_entries (entries meta) k = Ok root ->
  metadata_v2_ctor meta off =
    Ok (mk_metadata_v2_ meta root off (s32 (chunk_index_offset meta))).
Proof.
  intros Hk Hr. unfold metadata_v2_ctor. rewrite Hk. simpl.
  rewrite Hr. reflexivity.
Qed.

Lemma ctor_reads_root_only_witness :
  metadata_v2_ctor overrun 0 =
    Ok (mk_metadata_v2_ overrun (mk_entry 0 0 0) 0
                        (s32 (chunk_index_offset overrun))).
Proof.
  apply (ctor_reads_root_only overrun 0 0 (mk_entry 0 0 0)); reflexivity.
Defined.

(** C5, the claim as stated fails: the directory of [overrun] declares
    children 1 to 5 of an entries table of length 1, and the
    constructor succeeds on it. *)
Lemma ctor_accepts_overrun :
  (exists d, In d (directories overrun) /\ ~ extent_ok overrun d) /\
  is_ok (metadata_v2_ctor overrun 0) = true.
Proof.
  split; [|reflexivity].
  exists (mk_directory 1 5). split; [left; reflexivity|].
  unfold extent_ok. simpl. lia.
Qed.

(** ** Paths made of slashes *)

Lemma skip_slashes_all path :
  all_slashes path = true -> skip_slashes path = EmptyString.
Proof.
  induction path as [|c rest IH]; simpl; [reflexivity|].
  intros H. apply andb_true_iff in H. destruct H as [Hc Hrest].
  rewrite Hc. auto.
Qed.

(** C10: on a path made of ['/'] characters only, the empty path
    included, [find] returns the root entry, which the constructor
    read from [entries[entry_index[0]]]. *)
Theorem find_path_slashes_root meta off h path :
  metadata_v2_ctor meta off = Ok h ->
  all_slashes path = true ->
  find_path h path = Ok (Some (root_ h)) /\
  exists k, at_ T_entry_index (entry_index meta) 0 = Ok k /\
            at_ T_entries (entries meta) k = Ok (root_ h).
Proof.
  intros Hc Hp. split.
  - unfold find_path. rewrite (skip_slashes_all _ Hp). reflexivity.
  - destruct (ctor_inv _ _ _ Hc) as [k [Hk [Hr _]]]. eauto.
Qed.

Lemma find_path_slashes_root_witness :
  find_path abc_h "///" = Ok (Some (root_ abc_h)) /\
  exists k, at_ T_entry_index (entry_index abc) 0 = Ok k /\
            at_ T_entries (entries abc) k = Ok (root_ abc_h).
Proof.
  apply (find_path_slashes_root abc 0 abc_h "///"); reflexivity.
Defined.

(** ** Lookup by inode *)


Section GetEntry.

Variable h : metadata_v2_.

Local Abbreviation index_size :=
  (Z.of_nat (List.length (entry_index (meta_ h)))).

Hypothesis size_fits_int : index_size <= INT_MAX.

Lemma get_entry_out_of_range i :
  is_int (i - inode_offset_ h) = true ->
  ~ (0 <= i - inode_offset_ h < index_size) ->
  get_entry h i = Ok None.
Proof.
  intros Hi Hr. unfold get_entry. rewrite Hi.
  rewrite s32_small by (unfold INT_MAX in size_fits_int; lia).
  destruct (Z.leb_spec 0 (i - inode_offset_ h));
    destruct (Z.ltb_spec (i - inode_offset_ h) index_size);
    simpl; try reflexivity.
  lia.
Qed.

Lemma get_entry_in_range i :
  is_int (i - inode_offset_ h) = true ->
  0 <= i - inode_offset_ h < index_size ->
  get_entry h i =
    (k <- at_ T_entry_index (entry_index (meta_ h)) (i - inode_offset_ h) ;;
     e <- at_ T_entries (entries (meta_ h)) k ;;
     Ok (Some e)).
Proof.
  intros Hi Hr. unfold get_entry. rewrite Hi.
  rewrite s32_small by (unfold INT_MAX in size_fits_int; lia).
  destruct (Z.leb_spec 0 (i - inode_offset_ h)); [|lia].
  destruct (Z.ltb_spec (i - inode_offset_ h) index_size); [|lia].
  reflexivity.
Qed.

End GetEntry.



(** ** File sizes *)

Lemma skipn_nth_error {A : Type} (l : list A) (k : nat) (x : A) :
  nth_error l k = Some x -> skipn k l = x :: skipn (S k) l.
Proof.
  revert k. induction l as [|y l IH]; intros [|k] H; simpl in *;
    try discriminate.
  - inversion H; reflexivity.
  - apply IH in H. rewrite H. reflexivity.
Qed.

Section Sizes.

Variable h : metadata_v2_.

Local Abbreviation table_chunks := (chunks (meta_ h)).

Lemma sum_chunks_spec (n : nat) : forall cur acc,
  0 <= cur ->
  0 <= acc < 2 ^ 64 ->
  ((0 < n)%nat -> cur + Z.of_nat n <= Z.of_nat (List.length table_chunks)) ->
  sum_chunks h n cur acc =
    Ok (u64 (acc + fold_right Z.add 0
                     (map size (firstn n (skipn (Z.to_nat cur) table_chunks))))).
Proof.
  induction n as [|n IH]; intros cur acc Hcur Hacc Hlen.
  - simpl. rewrite Z.add_0_r, u64_small by assumption. reflexivity.
  - assert (Hin : 0 <= cur < Z.of_nat (List.length table_chunks)) by lia.
    destruct (at_in_range T_chunks table_chunks cur Hin) as [c Hc].
    cbn [sum_chunks]. rewrite Hc. cbn [bind].
    apply at_Ok in Hc. destruct Hc as [_ Hc].
    rewrite (skipn_nth_error _ _ _ Hc). cbn [firstn map fold_right].
    rewrite IH.
    + rewrite u64_add_idem.
      replace (Z.to_nat (cur + 1)) with (S (Z.to_nat cur)) by lia.
      f_equal. f_equal. lia.
    + lia.
    + apply u64_range.
    + intros _. lia.
Qed.

Lemma sum_chunks_nonneg (n : nat) : forall cur acc sz,
  0 <= acc -> sum_chunks h n cur acc = Ok sz -> 0 <= sz.
Proof.
  induction n as [|n IH]; intros cur acc sz Hacc H; simpl in H.
  - inversion H; subst; assumption.
  - apply bind_Ok in H. destruct H as [c [_ H]].
    eapply IH; [|exact H]. apply u64_range.
Qed.

Lemma file_size_nonneg e md sz : file_size h e md = Ok sz -> 0 <= sz.
Proof.
  unfold file_size. destruct (S_ISREG (u16 md)).
  - unfold reg_file_size. intros H.
    apply bind_Ok in H. destruct H as [c [_ H]].
    apply bind_Ok in H. destruct H as [d [_ H]].
    eapply sum_chunks_nonneg; [|exact H]. lia.
  - destruct (S_ISLNK (u16 md)).
    + unfold link_size. intros H.
      apply bind_Ok in H. destruct H as [s [_ H]].
      inversion H; subst. lia.
    + intros H. inversion H; subst. lia.
Qed.

Lemma reg_file_size_spec e b en :
  chunk_index_offset_ h = chunk_index_offset (meta_ h) ->
  0 <= inode e - chunk_index_offset (meta_ h) ->
  inode e - chunk_index_offset (meta_ h) + 1 < 2 ^ 32 ->
  at_ T_chunk_index (chunk_index (meta_ h))
      (inode e - chunk_index_offset (meta_ h)) = Ok b ->
  at_ T_chunk_index (chunk_index (meta_ h))
      (inode e - chunk_index_offset (meta_ h) + 1) = Ok en ->
  0 <= b < 2 ^ 32 ->
  0 <= en < 2 ^ 32 ->
  en <= Z.of_nat (List.length table_chunks) ->
  0 <= chunk_range_sum (meta_ h) b en < 2 ^ 64 ->
  reg_file_size h e = Ok (chunk_range_sum (meta_ h) b en).
Proof.
  intros Hoff Hlo Hhi Hb Hen Rb Ren Hlen Hsum.
  unfold reg_file_size. rewrite Hoff.
  rewrite (u32_small (inode e - chunk_index_offset (meta_ h))) by lia.
  rewrite Hb. cbn [bind].
  rewrite (u32_small (inode e - chunk_index_offset (meta_ h) + 1)) by lia.
  rewrite Hen. cbn [bind].
  rewrite (u32_small b), (u32_small en) by assumption.
  rewrite sum_chunks_spec.
  - rewrite Z.add_0_l. fold (chunk_range_sum (meta_ h) b en).
    rewrite u64_small by assumption. reflexivity.
  - lia.
  - lia.
  - intros Hpos. lia.
Qed.

End Sizes.

Lemma land_u16_IFMT md : Z.land (u16 md) S_IFMT = Z.land md S_IFMT.
Proof.
  unfold u16. rewrite <- Z.land_ones by lia.
  rewrite <- Z.land_assoc. reflexivity.
Qed.

Lemma S_ISREG_u16 md : S_ISREG (u16 md) = S_ISREG md.
Proof. unfold S_ISREG. rewrite land_u16_IFMT. reflexivity. Qed.

Lemma S_ISLNK_u16 md : S_ISLNK (u16 md) = S_ISLNK md.
Proof. unfold S_ISLNK. rewrite land_u16_IFMT. reflexivity. Qed.

Lemma file_size_cases h e md :
  file_size h e md =
    if S_ISREG md then reg_file_size h e
    else if S_ISLNK md then link_size h e
    else Ok 0.
Proof. unfold file_size. rewrite S_ISREG_u16, S_ISLNK_u16. reflexivity. Qed.

Lemma S_ISLNK_not_REG md : S_ISLNK md = true -> S_ISREG md = false.
Proof.
  unfold S_ISLNK, S_ISREG. intros H. apply Z.eqb_eq in H. rewrite H.
  reflexivity.
Qed.

Lemma S_ISDIR_not_REG_LNK md :
  S_ISDIR md = true -> S_ISREG md = false /\ S_ISLNK md = false.
Proof.
  unfold S_ISDIR, S_ISLNK, S_ISREG. intros H. apply Z.eqb_eq in H.
  rewrite H. split; reflexivity.
Qed.

(** C7: the size of a regular file is the sum of the sizes of the
    chunks in [[chunk_index[i'], chunk_index[i'+1])] with
    [i' = inode - chunk_index_offset]; the size of a symbolic link is
    the byte length of its target
    [links[link_index[inode] - link_index_offset]]; every other type,
    directories included, has size 0; a file of three chunks of 4096,
    4096 and 17 bytes has size 8209.  The reads are assumed in bounds
    and the values inside their 32-bit and 64-bit types. *)
Theorem file_size_law :
  (forall h e md b en,
     S_ISREG md = true ->
     chunk_index_offset_ h = chunk_index_offset (meta_ h) ->
     0 <= inode e - chunk_index_offset (meta_ h) ->
     inode e - chunk_index_offset (meta_ h) + 1 < 2 ^ 32 ->
     at_ T_chunk_index (chunk_index (meta_ h))
         (inode e - chunk_index_offset (meta_ h)) = Ok b ->
     at_ T_chunk_index (chunk_index (meta_ h))
         (inode e - chunk_index_offset (meta_ h) + 1) = Ok en ->
     0 <= b < 2 ^ 32 ->
     0 <= en < 2 ^ 32 ->
     en <= Z.of_nat (List.length (chunks (meta_ h))) ->
     0 <= chunk_range_sum (meta_ h) b en < 2 ^ 64 ->
     file_size h e md = Ok (chunk_range_sum (meta_ h) b en)) /\
  (forall h e md li target,
     S_ISLNK md = true ->
     at_ T_link_index (link_index (meta_ h)) (inode e) = Ok li ->
     0 <= li - link_index_offset (meta_ h) < 2 ^ 32 ->
     at_ T_links (links (meta_ h)) (li - link_index_offset (meta_ h))
       = Ok target ->
     file_size h e md = Ok (Z.of_nat (String.length target))) /\
  (forall h e md,
     S_ISREG md = false -> S_ISLNK md = false ->
     file_size h e md = Ok 0) /\
  (forall h e md, S_ISDIR md = true -> file_size h e md = Ok 0) /\
  (chunk_range_sum tree 0 3 = 4096 + 4096 + 17 /\
   file_size tree_h (mk_entry 1 1 3) mode_reg = Ok 8209).
Proof.
  split; [|split; [|split; [|split]]].
  - intros h e md b en Hreg. intros. rewrite file_size_cases, Hreg.
    apply reg_file_size_spec; assumption.
  - intros h e md li target Hlnk Hli Hr Ht. rewrite file_size_cases.
    rewrite (S_ISLNK_not_REG _ Hlnk), Hlnk.
    unfold link_size, link_name. rewrite Hli. cbn [bind].
    rewrite u32_small by assumption. rewrite Ht. reflexivity.
  - intros h e md Hreg Hlnk. rewrite file_size_cases, Hreg, Hlnk.
    reflexivity.
  - intros h e md Hdir. rewrite file_size_cases.
    destruct (S_ISDIR_not_REG_LNK _ Hdir) as [-> ->]. reflexivity.
  - split; reflexivity.
Qed.

Lemma file_size_law_witness :
  file_size tree_h (mk_entry 1 1 3) mode_reg = Ok (chunk_range_sum tree 0 3)
  /\ file_size tree_h (mk_entry 4 2 4) mode_lnk
       = Ok (Z.of_nat (String.length "../a"))
  /\ file_size tree_h (mk_entry 2 0 1) mode_dir = Ok 0.
Proof.
  destruct file_size_law as [Hreg [Hlnk [_ [Hdir _]]]].
  split; [|split].
  - apply (Hreg tree_h (mk_entry 1 1 3) mode_reg 0 3);
      try reflexivity; simpl; try lia; try discriminate.
    vm_compute. split; [discriminate | reflexivity].
  - apply (Hlnk tree_h (mk_entry 4 2 4) mode_lnk 4 "../a"%string);
      try reflexivity; simpl; lia.
  - apply (Hdir tree_h (mk_entry 2 0 1) mode_dir). reflexivity.
Defined.

(** ** Attributes *)

Lemma READ_ONLY_MASK_value :
  READ_ONLY_MASK = Z.ldiff (Z.ones 16) write_bits.
Proof. reflexivity. Qed.

Lemma testbit_above_u16 md n :
  0 <= md < 2 ^ 16 -> 16 <= n -> Z.testbit md n = false.
Proof.
  intros Hmd Hn. destruct (Z.eq_dec md 0) as [->|Hnz].
  - apply Z.testbit_0_l.
  - apply Z.bits_above_log2; [lia|].
    assert (Z.log2 md < 16) by (apply Z.log2_lt_pow2; lia). lia.
Qed.

(** On a 16-bit word the mask keeps every bit but the write bits. *)
Lemma read_only_mask_clears md :
  0 <= md < 2 ^ 16 -> Z.land md READ_ONLY_MASK = Z.ldiff md write_bits.
Proof.
  intros Hmd. apply Z.bits_inj'. intros n Hn.
  rewrite READ_ONLY_MASK_value, Z.land_spec, !Z.ldiff_spec.
  destruct (Z.ltb_spec n 16) as [Hlt|Hge].
  - rewrite Z.ones_spec_low by lia. reflexivity.
  - rewrite (testbit_above_u16 md n Hmd Hge). reflexivity.
Qed.

Lemma write_bits_cleared md :
  Z.land (Z.ldiff md write_bits) S_IWUSR = 0 /\
  Z.land (Z.ldiff md write_bits) S_IWGRP = 0 /\
  Z.land (Z.ldiff md write_bits) S_IWOTH = 0.
Proof.
  repeat split; apply Z.bits_inj'; intros n Hn;
    rewrite Z.land_spec, Z.ldiff_spec, Z.bits_0;
    destruct (Z.testbit md n); simpl; try reflexivity.
  - destruct (Z.eq_dec n 7) as [->|Hne]; [reflexivity|].
    change S_IWUSR with (2 ^ 7). rewrite Z.pow2_bits_false by lia.
    apply andb_false_r.
  - destruct (Z.eq_dec n 4) as [->|Hne]; [reflexivity|].
    change S_IWGRP with (2 ^ 4). rewrite Z.pow2_bits_false by lia.
    apply andb_false_r.
  - destruct (Z.eq_dec n 1) as [->|Hne]; [reflexivity|].
    change S_IWOTH with (2 ^ 1). rewrite Z.pow2_bits_false by lia.
    apply andb_false_r.
Qed.

Lemma entry_mode_range h e md : entry_mode h e = Ok md -> 0 <= md < 2 ^ 16.
Proof.
  unfold entry_mode. intros H. apply bind_Ok in H.
  destruct H as [x [_ H]]. inversion H; subst. apply u16_range.
Qed.

(** [getattr] has no error path: whenever it returns, it returns 0. *)
Lemma getattr_returns_zero h e stbuf rc out :
  getattr h e stbuf = Ok (rc, out) -> rc = 0.
Proof.
  unfold getattr. intros H.
  apply bind_Ok in H. destruct H as [md [_ H]].
  apply bind_Ok in H. destruct H as [sz [_ H]].
  destruct (_ <=? INT64_MAX) in H; [|discriminate].
  inversion H; reflexivity.
Qed.

(** C6, as the code has it: whatever the output buffer held,
    [getattr] returns 0 and a buffer that is zero but for four
    fields: [st_mode] is the mode of the entry with the three write
    bits cleared, [st_size] its size, [st_blocks] the size in blocks
    of 512 bytes, rounded up, and [st_ino] is [inode + inode_offset]
    taken on [uint32_t], that is modulo 2^32: it is
    [inode + inode_offset] itself exactly when that sum lies in
    [[0, 2^32)].  The entry may be of any type; its mode and size are
    read from the record, which is an argument that [getattr] does
    not return, so the stored mode word is as it was.  The mode and
    the size of the entry are assumed readable, and the size plus 511
    inside [off_t]. *)
Theorem getattr_spec h e md sz stbuf :
  entry_mode h e = Ok md ->
  file_size h e md = Ok sz ->
  sz <= INT64_MAX - 511 ->
  exists out,
    getattr h e stbuf = Ok (0, out) /\
    out = set_st_blocks ((sz + 511) / 512)
            (set_st_ino ((inode e + inode_offset_ h) mod 2 ^ 32)
               (set_st_size sz
                  (set_st_mode (Z.ldiff md write_bits) zeroed))) /\
    Z.land (st_mode out) S_IWUSR = 0 /\
    Z.land (st_mode out) S_IWGRP = 0 /\
    Z.land (st_mode out) S_IWOTH = 0 /\
    512 * (st_blocks out - 1) < sz <= 512 * st_blocks out /\
    (st_ino out = inode e + inode_offset_ h <->
     0 <= inode e + inode_offset_ h < 2 ^ 32).
Proof.
  intros Hmd Hsz Hfit.
  pose proof (file_size_nonneg _ _ _ _ Hsz) as Hnn.
  pose proof (entry_mode_range _ _ _ Hmd) as Hrange.
  unfold INT64_MAX in Hfit.
  eexists. split; [|split].
  - unfold getattr. rewrite Hmd. cbn [bind]. rewrite Hsz. cbn [bind].
    cbn [st_size set_st_size set_st_ino set_st_mode].
    rewrite s64_small by lia.
    destruct (Z.leb_spec (sz + 511) INT64_MAX) as [_|Hbad];
      [|unfold INT64_MAX in Hbad; lia].
    unfold u32.
    rewrite Z.quot_div_nonneg by lia.
    rewrite read_only_mask_clears by assumption.
    reflexivity.
  - reflexivity.
  - cbn [st_mode st_blocks st_ino set_st_blocks set_st_ino set_st_size
         set_st_mode].
    destruct (write_bits_cleared md) as [H1 [H2 H3]].
    repeat (split; [assumption|]).
    split.
    + pose proof (Z.div_mod (sz + 511) 512 ltac:(lia)) as Hdm.
      pose proof (Z.mod_pos_bound (sz + 511) 512 ltac:(lia)) as Hmb.
      lia.
    + pose proof (Z.mod_pos_bound (inode e + inode_offset_ h) (2 ^ 32)
                    ltac:(lia)) as Hmod.
      split.
      * intros Heq. rewrite Heq in Hmod. exact Hmod.
      * intros Hin. apply Z.mod_small. exact Hin.
Qed.

Lemma getattr_spec_witness :
  exists out,
    getattr tree_h (mk_entry 1 1 3) zeroed = Ok (0, out) /\
    st_mode out = 33060 /\ st_size out = 8209 /\ st_ino out = 4 /\
    st_blocks out = 17.
Proof.
  destruct (getattr_spec tree_h (mk_entry 1 1 3) mode_reg 8209 zeroed
              eq_refl eq_refl)
    as [out [Hget [Hout _]]].
  - unfold INT64_MAX. lia.
  - exists out. split; [exact Hget|]. rewrite Hout.
    split; [|split; [|split]]; reflexivity.
Defined.

(** C6, the claim as stated fails: with [inode_offset = -1], an
    [int] that the constructor accepts, the root (inode 0) of [tree]
    gets [st_ino = 4294967295], not [0 + (-1)]. *)
Lemma getattr_ino_wraps :
  metadata_v2_ctor tree (-1)
    = Ok (mk_metadata_v2_ tree (mk_entry 0 0 0) (-1) 3) /\
  exists out,
    getattr (mk_metadata_v2_ tree (mk_entry 0 0 0) (-1) 3)
            (mk_entry 0 0 0) zeroed = Ok (0, out) /\
    st_ino out = 4294967295 /\
    st_ino out <>
      inode (mk_entry 0 0 0)
      + inode_offset_ (mk_metadata_v2_ tree (mk_entry 0 0 0) (-1) 3).
Proof.
  split; [reflexivity|].
  eexists. split; [reflexivity|]. split; [reflexivity | discriminate].
Qed.

(** ** Slashes in paths *)

Local Open Scope string_scope.

Lemma skip_slashes_prefix k path :
  skip_slashes (slashes k ++ path) = skip_slashes path.
Proof. induction k as [|k IH]; simpl; auto. Qed.

Lemma ends_with_slash_cons c rest :
  rest <> EmptyString ->
  ends_with_slash (String c rest) = ends_with_slash rest.
Proof. destruct rest; [congruence | reflexivity]. Qed.

Lemma skip_slashes_trailing path :
  ends_with_slash path = false ->
  path = EmptyString \/
  (skip_slashes path <> EmptyString /\
   skip_slashes (path ++ "/") = skip_slashes path ++ "/" /\
   ends_with_slash (skip_slashes path) = false).
Proof.
  induction path as [|c rest IH]; intros Hend; [left; reflexivity|].
  right. simpl. destruct (Ascii.eqb_spec c "/") as [->|Hc].
  - destruct rest as [|c' rest']; [discriminate Hend|].
    rewrite ends_with_slash_cons in Hend by discriminate.
    destruct (IH Hend) as [Habs|Hgo]; [discriminate Habs | exact Hgo].
  - repeat split; [discriminate | exact Hend].
Qed.

Lemma split_component_trailing path :
  match split_component path with
  | (comp, None) => split_component (path ++ "/") = (comp, Some EmptyString)
  | (comp, Some rest) =>
      split_component (path ++ "/") = (comp, Some (rest ++ "/"))
  end.
Proof.
  induction path as [|c rest IH]; simpl; [reflexivity|].
  destruct (Ascii.eqb c "/"); [reflexivity|].
  destruct (split_component rest) as [comp [next|]];
    rewrite IH; reflexivity.
Qed.

Lemma split_component_rest path comp rest :
  split_component path = (comp, Some rest) ->
  ends_with_slash path = false ->
  rest <> EmptyString /\ ends_with_slash rest = false /\
  (String.length rest < String.length path)%nat.
Proof.
  revert comp. induction path as [|c p IH]; intros comp Hs Hend;
    simpl in Hs; [discriminate|].
  destruct (Ascii.eqb_spec c "/") as [->|Hc].
  - inversion Hs; subst. destruct rest as [|c' rest']; [discriminate Hend|].
    rewrite ends_with_slash_cons in Hend by discriminate.
    repeat split; [discriminate | exact Hend | simpl; lia].
  - destruct (split_component p) as [comp' next'] eqn:Hp.
    inversion Hs; subst.
    destruct p as [|c' p']; [discriminate Hp|].
    rewrite ends_with_slash_cons in Hend by discriminate.
    destruct (IH comp' eq_refl Hend) as [H1 [H2 H3]].
    repeat split; [exact H1 | exact H2 | simpl in *; lia].
Qed.

Section PathLoop.

Variable h : metadata_v2_.

Lemma find_loop_step fuel e c rest :
  find_loop h (S fuel) e (String c rest) =
    (let (comp, next) := split_component (String c rest) in
     dir <- getdir h e ;;
     r <- find_dir h dir comp ;;
     match r with
     | None => Ok None
     | Some e' =>
         find_loop h fuel e'
                   (match next with
                    | Some rest' => rest'
                    | None => EmptyString
                    end)
     end)%res.
Proof. reflexivity. Qed.

Lemma find_loop_empty fuel e : find_loop h fuel e EmptyString = Ok (Some e).
Proof. destruct fuel; reflexivity. Qed.

Lemma find_loop_trailing fuel : forall e path,
  path <> EmptyString ->
  ends_with_slash path = false ->
  (String.length path <= fuel)%nat ->
  find_loop h (S fuel) e (path ++ "/") = find_loop h fuel e path.
Proof.
  induction fuel as [|fuel IH]; intros e path Hne Hend Hlen.
  - destruct path; [congruence | simpl in Hlen; lia].
  - destruct path as [|c rest]; [congruence|].
    change (String c rest ++ "/") with (String c (rest ++ "/")).
    rewrite (find_loop_step (S fuel)), (find_loop_step fuel).
    change (String c (rest ++ "/")) with (String c rest ++ "/").
    pose proof (split_component_trailing (String c rest)) as Hsplit.
    destruct (split_component (String c rest)) as [comp [next|]] eqn:Hs;
      rewrite Hsplit.
    + destruct (split_component_rest _ _ _ Hs Hend) as [Hn [He Hl]].
      destruct (getdir h e) as [dir| |]; try reflexivity. cbn [bind].
      destruct (find_dir h dir comp) as [[e'|]| |]; try reflexivity.
      cbn [bind]. apply IH; auto. simpl in Hlen, Hl. lia.
    + destruct (getdir h e) as [dir| |]; try reflexivity. cbn [bind].
      destruct (find_dir h dir comp) as [[e'|]| |]; try reflexivity.
      cbn [bind]. rewrite !find_loop_empty. reflexivity.
Qed.

End PathLoop.

Lemma length_app_slash path :
  String.length (path ++ "/") = S (String.length path).
Proof. induction path as [|c rest IH]; simpl; auto. Qed.

(** C2, as the code has it: [find] skips any number of leading ['/']
    and tolerates one ['/'] after a path that does not itself end in
    ['/']; the result is that of the path without them. *)
Theorem find_path_slashes_tolerated h k path :
  ends_with_slash path = false ->
  find_path h (slashes k ++ path) = find_path h path /\
  find_path h (slashes k ++ path ++ "/") = find_path h path.
Proof.
  intros Hend. unfold find_path. rewrite !skip_slashes_prefix.
  split; [reflexivity|].
  destruct (skip_slashes_trailing path Hend) as [->|[Hne [Happ Hend']]].
  - reflexivity.
  - rewrite Happ, length_app_slash.
    apply find_loop_trailing; auto.
Qed.

Lemma find_path_slashes_tolerated_witness :
  find_path nested_h ("///" ++ "a/b") = find_path nested_h "a/b" /\
  find_path nested_h ("///" ++ "a/b" ++ "/") = find_path nested_h "a/b".
Proof.
  apply (find_path_slashes_tolerated nested_h 3 "a/b"). reflexivity.
Defined.

(** C2, the claim as stated fails: in the record [nested], where /a/b
    exists, the doubled ['/'] of ///a//b/// makes [find] look up the
    empty name in the directory a, which is not there. *)
Lemma find_path_repeated_slash_differs :
  find_path nested_h "/a/b" = Ok (Some (mk_entry 2 1 2)) /\
  find_path nested_h "///a//b///" = Ok None /\
  find_path nested_h "///a//b///" <> find_path nested_h "/a/b".
Proof. repeat split. discriminate. Qed.

Local Close Scope string_scope.

(** ** Binary search *)

Lemma shiftr_1_half len : 0 < len -> 0 <= Z.shiftr len 1 < len.
Proof.
  intros H. rewrite Z.shiftr_div_pow2 by lia. change (2 ^ 1) with 2.
  pose proof (Z.div_mod len 2 ltac:(lia)).
  pose proof (Z.mod_pos_bound len 2 ltac:(lia)). lia.
Qed.

Lemma shiftr_1_ge_1 len : 2 <= len -> 1 <= Z.shiftr len 1.
Proof.
  intros H. rewrite Z.shiftr_div_pow2 by lia. change (2 ^ 1) with 2.
  pose proof (Z.div_mod len 2 ltac:(lia)).
  pose proof (Z.mod_pos_bound len 2 ltac:(lia)). lia.
Qed.

Section LowerBound.

Variable comp : Z -> Res bool.

(** The result lies in the searched range. *)
Lemma lower_bound_range fuel : forall first len r,
  0 <= len ->
  lower_bound fuel comp first len = Ok r ->
  first <= r <= first + len.
Proof.
  induction fuel as [|fuel IH]; intros first len r Hlen H.
  - simpl in H. destruct (Z.ltb_spec 0 len); [discriminate|].
    inversion H; subst. lia.
  - cbn [lower_bound] in H. destruct (Z.ltb_spec 0 len) as [Hpos|Hz].
    + pose proof (shiftr_1_half len Hpos) as Hhalf.
      apply bind_Ok in H. destruct H as [b [_ H]].
      destruct b; apply IH in H; lia.
    + inversion H; subst. lia.
Qed.

(** With [len] units of fuel the search ends, provided the comparator
    is defined on the range. *)
Lemma lower_bound_defined fuel : forall first len,
  0 <= len <= Z.of_nat fuel ->
  (forall i, first <= i < first + len -> exists b, comp i = Ok b) ->
  exists r, lower_bound fuel comp first len = Ok r /\
            first <= r <= first + len.
Proof.
  induction fuel as [|fuel IH]; intros first len Hlen Hcomp.
  - assert (len = 0) by lia. subst. exists first. simpl. split; [auto|lia].
  - cbn [lower_bound]. destruct (Z.ltb_spec 0 len) as [Hpos|Hz].
    + pose proof (shiftr_1_half len Hpos) as Hhalf.
      destruct (Hcomp (first + Z.shiftr len 1) ltac:(lia)) as [b Hb].
      rewrite Hb. cbn [bind]. destruct b.
      * destruct (IH (first + Z.shiftr len 1 + 1)
                     (len - Z.shiftr len 1 - 1)) as [r [Hr Hrange]].
        -- lia.
        -- intros i Hi. apply Hcomp. lia.
        -- exists r. split; [exact Hr | lia].
      * destruct (IH first (Z.shiftr len 1)) as [r [Hr Hrange]].
        -- lia.
        -- intros i Hi. apply Hcomp. lia.
        -- exists r. split; [exact Hr | lia].
    + exists first. split; [reflexivity | lia].
Qed.

(** The search never stops for want of fuel when given [len] units. *)
Lemma lower_bound_fuel fuel : forall first len,
  len <= Z.of_nat fuel ->
  (forall i, comp i <> OutOfFuel) ->
  lower_bound fuel comp first len <> OutOfFuel.
Proof.
  induction fuel as [|fuel IH]; intros first len Hlen Hcomp.
  - simpl. destruct (Z.ltb_spec 0 len); [lia | discriminate].
  - cbn [lower_bound]. destruct (Z.ltb_spec 0 len) as [Hpos|Hz];
      [|discriminate].
    pose proof (shiftr_1_half len Hpos) as Hhalf.
    specialize (Hcomp (first + Z.shiftr len 1)) as Hc.
    destruct (comp (first + Z.shiftr len 1)) as [b| |];
      [|discriminate|congruence].
    cbn [bind]. destruct b; apply IH; auto; lia.
Qed.

End LowerBound.

(** ** Lookup in a directory *)

(** What [lower_bound] receives from the comparator: "differs from
    [name]", not "is less than [name]". *)
Lemma string_compare_refl s : String.compare s s = Eq.
Proof.
  pose proof (String.compare_antisym s s) as H.
  destruct (String.compare s s); [reflexivity | discriminate H ..].
Qed.

Lemma sv_compare_bool n name :
  int_to_bool (sv_compare n name) = negb (String.eqb n name).
Proof.
  unfold int_to_bool, sv_compare.
  destruct (String.compare n name) eqn:Hc.
  - apply String.compare_eq_iff in Hc. subst.
    rewrite String.eqb_refl. reflexivity.
  - destruct (String.eqb_spec n name) as [->|_]; [|reflexivity].
    rewrite string_compare_refl in Hc. discriminate.
  - destruct (String.eqb_spec n name) as [->|_]; [|reflexivity].
    rewrite string_compare_refl in Hc. discriminate.
Qed.

Section FindDir.

Variable h : metadata_v2_.
Variable dir : directory.

Local Abbreviation first := (first_entry dir).
Local Abbreviation count := (entry_count dir).

Hypothesis first_nonneg : 0 <= first.
Hypothesis count_nonneg : 0 <= count.
Hypothesis last_fits : first + count < 2 ^ 32.

Lemma find_comp_named name it n :
  child_name h it n ->
  find_comp h name it = Ok (negb (String.eqb n name)).
Proof.
  intros [e [He Hn]]. unfold find_comp. rewrite He. cbn [bind].
  rewrite Hn. cbn [bind]. rewrite sv_compare_bool. reflexivity.
Qed.

(** A successful lookup returns a child of the directory that bears
    the name. *)
Lemma find_dir_sound name c :
  find_dir h dir name = Ok (Some c) ->
  exists it, first <= it < first + count /\
             at_ T_entries (entries (meta_ h)) it = Ok c /\
             entry_name h c = Ok name.
Proof.
  unfold find_dir. rewrite u32_small by lia. intros H.
  apply bind_Ok in H. destruct H as [it [Hit H]].
  apply lower_bound_range in Hit; [|lia].
  destruct (Z.eqb_spec it (first + count)) as [Heq|Hne]; simpl in H;
    [discriminate|].
  apply bind_Ok in H. destruct H as [cand [Hcand H]].
  apply bind_Ok in H. destruct H as [n [Hn H]].
  destruct (String.eqb_spec n name) as [->|_]; [|discriminate].
  inversion H; subst. exists it. repeat split; auto; lia.
Qed.

(** When every child can be read, the lookup is defined. *)
Lemma find_dir_defined name :
  (forall it, first <= it < first + count -> exists n, child_name h it n) ->
  exists r, find_dir h dir name = Ok r.
Proof.
  intros Hch. unfold find_dir. rewrite u32_small by lia.
  replace (first + count - first) with count by lia.
  destruct (lower_bound_defined (find_comp h name) (Z.to_nat count)
              first count) as [it [Hit Hrange]].
  - lia.
  - intros i Hi. destruct (Hch i Hi) as [n Hn].
    rewrite (find_comp_named name i n Hn). eauto.
  - rewrite Hit. cbn [bind].
    destruct (Z.eqb_spec it (first + count)) as [Heq|Hne]; simpl; [eauto|].
    destruct (Hch it ltac:(lia)) as [n [e [He Hn]]].
    rewrite He. cbn [bind]. rewrite Hn. cbn [bind].
    destruct (String.eqb n name); eauto.
Qed.

(** A name that no child bears is not found. *)
Lemma find_dir_absent name :
  (forall it, first <= it < first + count ->
              exists n, child_name h it n /\ n <> name) ->
  find_dir h dir name = Ok None.
Proof.
  intros Hch.
  destruct (find_dir_defined name) as [[c|] Hr]; [| |exact Hr].
  - intros it Hi. destruct (Hch it Hi) as [n [Hn _]]. eauto.
  - exfalso. destruct (find_dir_sound name c Hr) as [it [Hi [Hc Hname]]].
    destruct (Hch it Hi) as [n [[e [He Hn]] Hneq]].
    rewrite Hc in He. inversion He; subst. rewrite Hname in Hn.
    inversion Hn; subst. congruence.
Qed.

(** The defect of the comparator, in general: in a directory of two
    or more children with distinct names, the first child is never
    found.  The first probe is at [first + count / 2], past the first
    child; its name differs from the one looked for, so the search
    moves right of it and cannot come back. *)
Lemma find_dir_first_child_missed name :
  2 <= count ->
  (forall it, first <= it < first + count -> exists n, child_name h it n) ->
  child_name h first name ->
  (forall it n, first < it < first + count -> child_name h it n ->
                n <> name) ->
  find_dir h dir name = Ok None.
Proof.
  intros Htwo Hch Hfirst Hdistinct.
  destruct (find_dir_defined name Hch) as [[c|] Hr]; [|exact Hr].
  exfalso. revert Hr. unfold find_dir. rewrite u32_small by lia.
  replace (first + count - first) with count by lia.
  destruct (Z.to_nat count) as [|fuel] eqn:Hfuel; [lia|].
  cbn [lower_bound]. destruct (Z.ltb_spec 0 count) as [_|]; [|lia].
  pose proof (shiftr_1_half count ltac:(lia)) as Hhalf.
  pose proof (shiftr_1_ge_1 count Htwo) as Hge.
  destruct (Hch (first + Z.shiftr count 1) ltac:(lia)) as [n Hn].
  rewrite (find_comp_named name _ n Hn). cbn [bind].
  assert (Hneq : n <> name)
    by (apply (Hdistinct (first + Z.shiftr count 1) n); [lia | exact Hn]).
  apply String.eqb_neq in Hneq. rewrite Hneq. cbn [negb].
  intros H. apply bind_Ok in H. destruct H as [it [Hit H]].
  apply lower_bound_range in Hit; [|lia].
  destruct (Z.eqb_spec it (first + count)) as [Heq|Hne]; simpl in H;
    [discriminate|].
  apply bind_Ok in H. destruct H as [cand [Hcand H]].
  apply bind_Ok in H. destruct H as [n' [Hn' H]].
  destruct (String.eqb_spec n' name) as [->|_]; [|discriminate].
  apply (Hdistinct it name ltac:(lia)); [|reflexivity].
  exists cand. auto.
Qed.

End FindDir.

Local Open Scope string_scope.

(** C1, the code at a failing input: the root of [abc] holds a, b and
    c in sorted order, at positions 1, 2 and 3 of the entries table; b
    and c are found, a is not.  The comparator given to
    [std::lower_bound] answers "differs", so the search leaves the
    first probe b to the right and ends at c. *)
Theorem find_dir_misses_first_child :
  getdir abc_h (root_ abc_h) = Ok (mk_directory 1 3) /\
  child_name abc_h 1 "a" /\ child_name abc_h 2 "b" /\ child_name abc_h 3 "c" /\
  find_dir abc_h (mk_directory 1 3) "b" = Ok (Some (mk_entry 2 1 2)) /\
  find_dir abc_h (mk_directory 1 3) "c" = Ok (Some (mk_entry 3 1 3)) /\
  find_dir abc_h (mk_directory 1 3) "a" = Ok None.
Proof.
  split; [reflexivity|].
  split; [eexists; split; reflexivity|].
  split; [eexists; split; reflexivity|].
  split; [eexists; split; reflexivity|].
  split; [reflexivity|]. split; reflexivity.
Qed.

(** ** Paths through entries that are not directories *)

Lemma find_loop_no_directory h fuel e c rest :
  ~ (0 <= inode e < Z.of_nat (List.length (directories (meta_ h)))) ->
  find_loop h (S fuel) e (String c rest) =
    Undefined (OutOfBounds T_directories).
Proof.
  intros Hout. rewrite find_loop_step.
  destruct (split_component (String c rest)) as [comp next].
  unfold getdir. rewrite at_out_of_range by exact Hout. reflexivity.
Qed.

(** C3, the code at a failing input: in [abc], b is a regular file
    with inode 2 and the directories table has the one record of the
    root.  [find] takes [directories[2]] for the component after b
    without looking at the type of b: a read outside the table, where
    "not found" was due. *)
Theorem find_path_through_file :
  find_path abc_h "/b" = Ok (Some (mk_entry 2 1 2)) /\
  entry_mode abc_h (mk_entry 2 1 2) = Ok mode_reg /\
  S_ISDIR mode_reg = false /\
  List.length (directories abc) = 1%nat /\
  getdir abc_h (mk_entry 2 1 2) = Undefined (OutOfBounds T_directories) /\
  find_path abc_h "/b/x" = Undefined (OutOfBounds T_directories).
Proof. repeat split. Qed.

Local Close Scope string_scope.

(** ** The tree walk *)

Lemma walk_entry_mode_index h (St : Type) fuel e
      (func : entry -> St -> St) s :
  S_ISDIR (mode e) = false ->
  walk_entry h (S fuel) e func s = Ok (func e s).
Proof. intros H. simpl. rewrite H. reflexivity. Qed.

(** C4, the code at a failing input: the root of [abc] is a directory
    by its mode word, [modes[0]], and has three children, but [walk]
    applies [S_ISDIR] to the mode index 0 of the entry.  With any
    fuel it calls the visitor on the root alone: one call for an
    entry-index of four. *)
Theorem walk_stops_at_root (fuel : nat) :
  entry_mode abc_h (root_ abc_h) = Ok mode_dir /\
  S_ISDIR mode_dir = true /\
  S_ISDIR (mode (root_ abc_h)) = false /\
  walk abc_h (S fuel) record_visit [] = Ok [root_ abc_h] /\
  List.length (entry_index abc) = 4%nat.
Proof.
  split; [reflexivity|]. split; [reflexivity|]. split; [reflexivity|].
  split; [|reflexivity].
  unfold walk. rewrite walk_entry_mode_index by reflexivity. reflexivity.
Qed.

(** ** Fuel *)

Lemma at_not_fuel {A : Type} t (l : list A) i : at_ t l i <> OutOfFuel.
Proof.
  unfold at_. destruct (i <? 0); [discriminate|].
  destruct (nth_error l (Z.to_nat i)); discriminate.
Qed.

Lemma find_comp_not_fuel h name it : find_comp h name it <> OutOfFuel.
Proof.
  unfold find_comp, entry_name.
  destruct (at_ T_entries (entries (meta_ h)) it) as [e| |] eqn:He;
    cbn [bind]; try discriminate.
  - destruct (at_ T_names (names (meta_ h)) (name_index e)) eqn:Hn;
      cbn [bind]; try discriminate.
    exfalso. exact (at_not_fuel _ _ _ Hn).
  - exfalso. exact (at_not_fuel _ _ _ He).
Qed.

Lemma find_dir_not_fuel h dir name : find_dir h dir name <> OutOfFuel.
Proof.
  unfold find_dir.
  set (len := u32 (first_entry dir + entry_count dir) - first_entry dir).
  pose proof (lower_bound_fuel (find_comp h name) (Z.to_nat len)
                (first_entry dir) len ltac:(lia)
                (find_comp_not_fuel h name)) as Hlb.
  destruct (lower_bound (Z.to_nat len) (find_comp h name)
              (first_entry dir) len) as [it| |]; cbn [bind];
    [|discriminate|congruence].
  destruct (negb (it =? u32 (first_entry dir + entry_count dir)));
    [|discriminate].
  unfold entry_name.
  destruct (at_ T_entries (entries (meta_ h)) it) as [e| |] eqn:He;
    cbn [bind]; try discriminate.
  - destruct (at_ T_names (names (meta_ h)) (name_index e)) eqn:Hn;
      cbn [bind]; try discriminate.
    + destruct (String.eqb a name); discriminate.
    + exfalso. exact (at_not_fuel _ _ _ Hn).
  - exfalso. exact (at_not_fuel _ _ _ He).
Qed.

Lemma split_component_next path comp rest :
  split_component path = (comp, Some rest) ->
  (String.length rest < String.length path)%nat.
Proof.
  revert comp. induction path as [|c p IH]; intros comp Hs;
    simpl in Hs; [discriminate|].
  destruct (Ascii.eqb c "/").
  - inversion Hs; subst. simpl. lia.
  - destruct (split_component p) as [comp' next'] eqn:Hp.
    inversion Hs; subst. specialize (IH comp' eq_refl). simpl. lia.
Qed.

Lemma find_loop_fuel h fuel : forall e path,
  (String.length path <= fuel)%nat ->
  find_loop h fuel e path <> OutOfFuel.
Proof.
  induction fuel as [|fuel IH]; intros e path Hlen.
  - destruct path; [discriminate | simpl in Hlen; lia].
  - destruct path as [|c rest]; [discriminate|].
    rewrite find_loop_step.
    destruct (split_component (String c rest)) as [comp next] eqn:Hs.
    unfold getdir.
    destruct (at_ T_directories (directories (meta_ h)) (inode e))
      as [dir| |] eqn:Hd; cbn [bind];
      [|discriminate|exfalso; exact (at_not_fuel _ _ _ Hd)].
    pose proof (find_dir_not_fuel h dir comp) as Hf.
    destruct (find_dir h dir comp) as [[e'|]| |]; cbn [bind];
      [|discriminate|discriminate|congruence].
    apply IH. destruct next as [rest'|]; [|simpl; lia].
    apply split_component_next in Hs. simpl in Hs, Hlen. lia.
Qed.

(** [find] on a path always comes to an end with the fuel it takes. *)
Lemma find_path_terminates h path : find_path h path <> OutOfFuel.
Proof. unfold find_path. apply find_loop_fuel. lia. Qed.

(** * Further properties of the code *)

(** ** The binary search and the lookup in a directory *)

Lemma lower_bound_partition (comp : Z -> Res bool) fuel :
  forall first len p,
  0 <= len <= Z.of_nat fuel ->
  first <= p <= first + len ->
  (forall i, first <= i < p -> comp i = Ok true) ->
  (forall i, p <= i < first + len -> comp i = Ok false) ->
  lower_bound fuel comp first len = Ok p.
Proof.
  induction fuel as [|fuel IH]; intros first len p Hlen Hp Htrue Hfalse.
  - assert (len = 0) by lia. subst len. simpl. f_equal. lia.
  - cbn [lower_bound]. destruct (Z.ltb_spec 0 len) as [Hpos|Hz].
    + pose proof (shiftr_1_half len Hpos) as Hhalf.
      destruct (Z.lt_ge_cases (first + Z.shiftr len 1) p) as [Hlt|Hge].
      * rewrite Htrue by lia. cbn [bind]. apply IH; try lia.
        -- intros i Hi. apply Htrue. lia.
        -- intros i Hi. apply Hfalse. lia.
      * rewrite Hfalse by lia. cbn [bind]. apply IH; try lia.
        -- intros i Hi. apply Htrue. lia.
        -- intros i Hi. apply Hfalse. lia.
    + f_equal. lia.
Qed.

(** X6: [std::lower_bound] returns the partition point.  When the
    comparator holds on [[first, p)] and fails on [[p, first + len)],
    the search over [[first, first + len)] returns [p]; in
    particular it returns the end of the range when the comparator
    holds everywhere and its start when it holds nowhere. *)
Theorem lower_bound_partition_point (comp : Z -> Res bool) fuel first len :
  0 <= len <= Z.of_nat fuel ->
  (forall p,
     first <= p <= first + len ->
     (forall i, first <= i < p -> comp i = Ok true) ->
     (forall i, p <= i < first + len -> comp i = Ok false) ->
     lower_bound fuel comp first len = Ok p) /\
  ((forall i, first <= i < first + len -> comp i = Ok true) ->
   lower_bound fuel comp first len = Ok (first + len)) /\
  ((forall i, first <= i < first + len -> comp i = Ok false) ->
   lower_bound fuel comp first len = Ok first).
Proof.
  intros Hlen. split; [|split].
  - intros p Hp Ht Hf. apply lower_bound_partition; assumption.
  - intros Ht.
    apply lower_bound_partition; [lia | lia | exact Ht | intros i Hi; lia].
  - intros Hf.
    apply lower_bound_partition; [lia | lia | intros i Hi; lia | exact Hf].
Qed.

Lemma lower_bound_partition_point_witness :
  lower_bound 4 (fun i => Ok (i <? 12)) 10 4 = Ok 12.
Proof.
  destruct (lower_bound_partition_point (fun i => Ok (i <? 12)) 4 10 4
              ltac:(simpl; lia)) as [Hp _].
  apply Hp.
  - lia.
  - intros i Hi. f_equal. apply Z.ltb_lt. lia.
  - intros i Hi. f_equal. apply Z.ltb_ge. lia.
Defined.

(** What a successful lookup returns bears the name, whatever the
    directory record holds. *)
Lemma find_dir_names h dir name c :
  find_dir h dir name = Ok (Some c) ->
  entry_name h c = Ok name /\
  exists it, at_ T_entries (entries (meta_ h)) it = Ok c.
Proof.
  unfold find_dir. intros H.
  apply bind_Ok in H. destruct H as [it [_ H]].
  destruct (negb (it =? u32 (first_entry dir + entry_count dir)));
    [|discriminate].
  apply bind_Ok in H. destruct H as [cand [Hcand H]].
  apply bind_Ok in H. destruct H as [n [Hn H]].
  destruct (String.eqb_spec n name) as [->|_]; [|discriminate].
  inversion H; subst. eauto.
Qed.

(** X1: a lookup that finds an entry returns a child of the
    directory, read at a position of its range
    [[first_entry, first_entry + entry_count)], whose name is the one
    looked for. *)
Theorem lookup_found_is_child h dir name c :
  0 <= first_entry dir ->
  0 <= entry_count dir ->
  first_entry dir + entry_count dir < 2 ^ 32 ->
  find_dir h dir name = Ok (Some c) ->
  exists it,
    first_entry dir <= it < first_entry dir + entry_count dir /\
    at_ T_entries (entries (meta_ h)) it = Ok c /\
    entry_name h c = Ok name.
Proof. intros H1 H2 H3 H. exact (find_dir_sound h dir H1 H2 H3 name c H). Qed.

Lemma lookup_found_is_child_witness :
  exists it,
    1 <= it < 1 + 3 /\
    at_ T_entries (entries abc) it = Ok (mk_entry 2 1 2) /\
    entry_name abc_h (mk_entry 2 1 2) = Ok "b"%string.
Proof.
  apply (lookup_found_is_child abc_h (mk_directory 1 3) "b"%string);
    simpl; try lia. reflexivity.
Defined.

(** X2: when every child of the directory can be read and none bears
    the name, the lookup returns "not found". *)
Theorem lookup_absent_not_found h dir name :
  0 <= first_entry dir ->
  0 <= entry_count dir ->
  first_entry dir + entry_count dir < 2 ^ 32 ->
  (forall it, first_entry dir <= it < first_entry dir + entry_count dir ->
              exists n, child_name h it n /\ n <> name) ->
  find_dir h dir name = Ok None.
Proof.
  intros H1 H2 H3 Hch.
  destruct (find_dir_defined h dir H1 H2 H3 name) as [[c|] Hr];
    [| |exact Hr].
  - intros it Hi. destruct (Hch it Hi) as [n [Hn _]]. eauto.
  - exfalso.
    destruct (find_dir_sound h dir H1 H2 H3 name c Hr) as [it [Hi [Hc Hname]]].
    destruct (Hch it Hi) as [n [[e [He Hn]] Hneq]].
    rewrite Hc in He. inversion He; subst. rewrite Hname in Hn.
    inversion Hn; subst. congruence.
Qed.

Lemma lookup_absent_not_found_witness :
  find_dir abc_h (mk_directory 1 3) "nope" = Ok None.
Proof.
  apply (lookup_absent_not_found abc_h (mk_directory 1 3) "nope"%string);
    simpl; try lia.
  intros it Hit.
  assert (Hcases : it = 1 \/ it = 2 \/ it = 3) by lia.
  destruct Hcases as [-> | [-> | ->]].
  - exists "a"%string. split; [eexists; split; reflexivity | discriminate].
  - exists "b"%string. split; [eexists; split; reflexivity | discriminate].
  - exists "c"%string. split; [eexists; split; reflexivity | discriminate].
Defined.

(** X3: in a directory without children the lookup returns
    "not found" at once: no entry is read, so the answer does not
    depend on where [first_entry] points. *)
Theorem lookup_in_empty_directory h dir name :
  entry_count dir = 0 ->
  0 <= first_entry dir < 2 ^ 32 ->
  find_dir h dir name = Ok None.
Proof.
  intros Hc Hf. unfold find_dir. rewrite Hc, Z.add_0_r.
  rewrite u32_small by exact Hf. rewrite Z.sub_diag. simpl.
  rewrite Z.eqb_refl. reflexivity.
Qed.

Lemma lookup_in_empty_directory_witness :
  find_dir abc_h (mk_directory 99 0) "a" = Ok None.
Proof.
  apply (lookup_in_empty_directory abc_h (mk_directory 99 0) "a"%string).
  - reflexivity.
  - simpl. lia.
Defined.





(** ** Cutting a path into components *)

(** X7: the name that [find] cuts from the front of a path for one
    lookup contains no ['/'], and with the rest of the path (what
    follows the first ['/'], when there is one) it makes up the path
    again; there is no rest exactly when the path has no ['/']. *)
Theorem path_component_cut path :
  has_slash (fst (split_component path)) = false /\
  path = (fst (split_component path) ++
          match snd (split_component path) with
          | Some rest => String "/" rest
          | None => EmptyString
          end)%string /\
  (snd (split_component path) = None <-> has_slash path = false).
Proof.
  induction path as [|c rest IH]; simpl.
  - repeat split; auto.
  - destruct (Ascii.eqb_spec c "/") as [->|Hc]; simpl.
    + repeat split; intros; discriminate.
    + destruct (split_component rest) as [comp next]. simpl in *.
      destruct IH as [H1 [H2 H3]].
      apply Ascii.eqb_neq in Hc. rewrite Hc. simpl.
      repeat split; try tauto. f_equal. exact H2.
Qed.

(** ** How path lookups compose *)

Local Open Scope string_scope.

Lemma string_length_app a b :
  String.length (a ++ b) = (String.length a + String.length b)%nat.
Proof. induction a as [|c a IH]; simpl; auto. Qed.

Lemma skip_slashes_app p s :
  skip_slashes p <> EmptyString ->
  skip_slashes (p ++ s) = skip_slashes p ++ s.
Proof.
  induction p as [|c rest IH]; simpl; [congruence|].
  destruct (Ascii.eqb c "/"); auto.
Qed.

Lemma split_component_app p q :
  match split_component p with
  | (comp, None) => split_component (p ++ String "/" q) = (comp, Some q)
  | (comp, Some rest) =>
      split_component (p ++ String "/" q) = (comp, Some (rest ++ String "/" q))
  end.
Proof.
  induction p as [|c rest IH]; simpl; [reflexivity|].
  destruct (Ascii.eqb c "/"); [reflexivity|].
  destruct (split_component rest) as [comp [next|]]; rewrite IH; reflexivity.
Qed.

Lemma split_component_no_slash name :
  has_slash name = false -> split_component name = (name, None).
Proof.
  induction name as [|c rest IH]; simpl; [reflexivity|].
  intros H. apply orb_false_iff in H. destruct H as [Hc Hrest].
  rewrite Hc, (IH Hrest). reflexivity.
Qed.

Lemma no_slash_skip name :
  has_slash name = false -> skip_slashes name = name.
Proof.
  destruct name as [|c rest]; simpl; [reflexivity|].
  intros H. apply orb_false_iff in H. destruct H as [Hc _].
  rewrite Hc. reflexivity.
Qed.

Section PathCompose.

Variable h : metadata_v2_.

(** Fuel beyond the length of the path changes nothing. *)
Lemma find_loop_fuel_irrelevant f1 : forall f2 e path,
  (String.length path <= f1)%nat ->
  (String.length path <= f2)%nat ->
  find_loop h f1 e path = find_loop h f2 e path.
Proof.
  induction f1 as [|f1 IH]; intros f2 e path H1 H2.
  - destruct path; [|simpl in H1; lia]. rewrite !find_loop_empty.
    reflexivity.
  - destruct path as [|c rest]; [rewrite !find_loop_empty; reflexivity|].
    destruct f2 as [|f2]; [simpl in H2; lia|].
    rewrite !find_loop_step.
    destruct (split_component (String c rest)) as [comp next] eqn:Hs.
    destruct (getdir h e) as [dir| |]; try reflexivity. cbn [bind].
    destruct (find_dir h dir comp) as [[e'|]| |]; try reflexivity.
    cbn [bind]. destruct next as [rest'|].
    + apply split_component_next in Hs. simpl in Hs, H1, H2.
      apply IH; lia.
    + rewrite !find_loop_empty. reflexivity.
Qed.

(** One component: a lookup in the directory of the entry. *)
Lemma find_loop_component fuel e name :
  name <> EmptyString ->
  has_slash name = false ->
  find_loop h (S fuel) e name =
    (dir <- getdir h e ;; find_dir h dir name)%res.
Proof.
  intros Hne Hns. destruct name as [|c rest]; [congruence|].
  rewrite find_loop_step, (split_component_no_slash _ Hns).
  destruct (getdir h e) as [dir| |]; try reflexivity. cbn [bind].
  destruct (find_dir h dir (String c rest)) as [[e'|]| |]; try reflexivity.
  cbn [bind]. apply find_loop_empty.
Qed.

(** The loop on [p/q] is the loop on [p] followed by the loop on [q]
    from where [p] led. *)
Lemma find_loop_app fuel : forall e p q,
  p <> EmptyString ->
  ends_with_slash p = false ->
  (String.length (p ++ String "/" q) <= fuel)%nat ->
  find_loop h fuel e (p ++ String "/" q) =
    (r <- find_loop h fuel e p ;;
     match r with
     | None => Ok None
     | Some e' => find_loop h fuel e' q
     end)%res.
Proof.
  induction fuel as [|fuel IH]; intros e p q Hne Hend Hlen.
  - destruct p; [congruence | simpl in Hlen; lia].
  - destruct p as [|c rest]; [congruence|].
    rewrite string_length_app in Hlen. simpl in Hlen.
    change (String c rest ++ String "/" q)
      with (String c (rest ++ String "/" q)).
    rewrite (find_loop_step h fuel e c (rest ++ String "/" q)).
    rewrite (find_loop_step h fuel e c rest).
    change (String c (rest ++ String "/" q))
      with (String c rest ++ String "/" q).
    pose proof (split_component_app (String c rest) q) as Hsplit.
    destruct (split_component (String c rest)) as [comp [next|]] eqn:Hs;
      rewrite Hsplit.
    + destruct (split_component_rest _ _ _ Hs Hend) as [Hn [He Hl]].
      simpl in Hl.
      destruct (getdir h e) as [dir| |]; try reflexivity. cbn [bind].
      destruct (find_dir h dir comp) as [[e'|]| |]; try reflexivity.
      cbn [bind]. rewrite IH; auto.
      * destruct (find_loop h fuel e' next) as [[e''|]| |]; try reflexivity.
        cbn [bind]. apply find_loop_fuel_irrelevant; lia.
      * rewrite string_length_app. simpl. lia.
    + destruct (getdir h e) as [dir| |]; try reflexivity. cbn [bind].
      destruct (find_dir h dir comp) as [[e'|]| |]; try reflexivity.
      cbn [bind]. rewrite find_loop_empty. cbn [bind].
      apply find_loop_fuel_irrelevant; lia.
Qed.

Lemma find_path_app p q :
  p <> EmptyString ->
  ends_with_slash p = false ->
  find_path h (p ++ String "/" q) =
    (r <- find_path h p ;;
     match r with
     | None => Ok None
     | Some e => find_from h e q
     end)%res.
Proof.
  intros Hne Hend. unfold find_path, find_from.
  destruct (skip_slashes_trailing p Hend) as [->|[Hskip [_ Hend']]];
    [congruence|].
  rewrite (skip_slashes_app p (String "/" q) Hskip).
  rewrite find_loop_app by auto.
  set (F := String.length (skip_slashes p ++ String "/" q)).
  assert (HF : F = (String.length (skip_slashes p) + S (String.length q))%nat)
    by (unfold F; rewrite string_length_app; reflexivity).
  rewrite (find_loop_fuel_irrelevant F (String.length (skip_slashes p)))
    by lia.
  destruct (find_loop h (String.length (skip_slashes p)) (root_ h)
              (skip_slashes p)) as [[e|]| |]; try reflexivity.
  cbn [bind]. apply find_loop_fuel_irrelevant; lia.
Qed.

Lemma find_from_component e name :
  name <> EmptyString ->
  has_slash name = false ->
  find_from h e name = (dir <- getdir h e ;; find_dir h dir name)%res.
Proof.
  intros Hne Hns. unfold find_from.
  destruct name as [|c rest]; [congruence|].
  apply find_loop_component; auto.
Qed.

Lemma find_path_root_component k name :
  name <> EmptyString ->
  has_slash name = false ->
  find_path h (slashes k ++ name) =
    (dir <- getdir h (root_ h) ;; find_dir h dir name)%res.
Proof.
  intros Hne Hns. unfold find_path.
  rewrite skip_slashes_prefix, (no_slash_skip _ Hns).
  destruct name as [|c rest]; [congruence|].
  apply find_loop_component; auto.
Qed.

End PathCompose.

(** X8: path lookups compose.  For a non-empty path [p] that does
    not end in ['/'], looking up [p/q] is looking up [p] and, when
    that finds an entry, resolving [q] from this entry; when [p] is
    not found, neither is [p/q], whatever [q] is, and an undefined
    read on the way of [p] is one of [p/q]. *)
Theorem find_path_composes h p q :
  p <> EmptyString ->
  ends_with_slash p = false ->
  find_path h (p ++ String "/" q) =
    (r <- find_path h p ;;
     match r with
     | None => Ok None
     | Some e => find_from h e q
     end)%res.
Proof. intros Hne Hend. apply find_path_app; assumption. Qed.

Lemma find_path_composes_witness :
  find_path tree_h ("/x/y" ++ String "/" "z") =
    (r <- find_path tree_h "/x/y" ;;
     match r with
     | None => Ok None
     | Some e => find_from tree_h e "z"
     end)%res.
Proof.
  apply (find_path_composes tree_h "/x/y" "z"); [discriminate | reflexivity].
Defined.

(** X9: a path of one component, after any number of leading ['/'],
    is a lookup of that name in the directory of the root; and for
    every path [p] that does not end in ['/'] (the empty path
    included), [p/name] is the lookup of [name] in the directory of
    the entry that [p] leads to.  The name is any non-empty string
    without ['/']: the names . and .. are looked up like any other. *)
Theorem find_path_last_component h name :
  name <> EmptyString ->
  has_slash name = false ->
  (forall k,
     find_path h (slashes k ++ name) =
       (dir <- getdir h (root_ h) ;; find_dir h dir name)%res) /\
  (forall p,
     ends_with_slash p = false ->
     find_path h (p ++ String "/" name) =
       (r <- find_path h p ;;
        match r with
        | None => Ok None
        | Some e => dir <- getdir h e ;; find_dir h dir name
        end)%res).
Proof.
  intros Hne Hns. split.
  - intros k. apply find_path_root_component; assumption.
  - intros p Hend. destruct p as [|c rest].
    + change (EmptyString ++ String "/" name) with (slashes 1 ++ name).
      rewrite find_path_root_component by assumption. reflexivity.
    + rewrite find_path_app by (auto; discriminate).
      destruct (find_path h (String c rest)) as [[e|]| |]; try reflexivity.
      cbn [bind]. apply find_from_component; assumption.
Qed.

Lemma find_path_last_component_witness :
  find_path tree_h ("//" ++ "..") =
    (dir <- getdir tree_h (root_ tree_h) ;; find_dir tree_h dir "..")%res /\
  find_path tree_h ("/x" ++ String "/" "..") =
    (r <- find_path tree_h "/x" ;;
     match r with
     | None => Ok None
     | Some e => dir <- getdir tree_h e ;; find_dir tree_h dir ".."
     end)%res.
Proof.
  destruct (find_path_last_component tree_h ".." ltac:(discriminate) eq_refl)
    as [Hroot Hsub].
  split.
  - exact (Hroot 2%nat).
  - apply Hsub. reflexivity.
Defined.

(** X10: the entry that [find] returns for a path bears the last
    component of the path as its name, and is an entry of the entries
    table. *)
Theorem find_path_names_entry h p name e :
  name <> EmptyString ->
  has_slash name = false ->
  ends_with_slash p = false ->
  find_path h (p ++ String "/" name) = Ok (Some e) ->
  entry_name h e = Ok name /\
  exists it, at_ T_entries (entries (meta_ h)) it = Ok e.
Proof.
  intros Hne Hns Hend Hfind.
  assert (Hlook : exists d dir, getdir h d = Ok dir /\
                                find_dir h dir name = Ok (Some e)).
  { destruct p as [|c rest].
    - change (EmptyString ++ String "/" name) with (slashes 1 ++ name)
        in Hfind.
      rewrite find_path_root_component in Hfind by assumption.
      apply bind_Ok in Hfind. destruct Hfind as [dir [Hd Hf]]. eauto.
    - rewrite find_path_app in Hfind by (auto; discriminate).
      apply bind_Ok in Hfind. destruct Hfind as [[d|] [_ Hf]];
        [|discriminate].
      rewrite find_from_component in Hf by assumption.
      apply bind_Ok in Hf. destruct Hf as [dir [Hd Hf]]. eauto. }
  destruct Hlook as [d [dir [_ Hf]]].
  exact (find_dir_names h dir name e Hf).
Qed.

Lemma find_path_names_entry_witness :
  entry_name tree_h (mk_entry 4 2 4) = Ok "z" /\
  exists it, at_ T_entries (entries tree) it = Ok (mk_entry 4 2 4).
Proof.
  apply (find_path_names_entry tree_h "/x/y" "z" (mk_entry 4 2 4));
    try reflexivity. discriminate.
Defined.

Local Close Scope string_scope.

(** ** Lookup of a name under an inode *)

Local Open Scope string_scope.

Lemma find_child_of_entry h i e name :
  get_entry h i = Ok (Some e) ->
  find_child h i name = (dir <- getdir h e ;; find_dir h dir name)%res.
Proof. intros H. unfold find_child. rewrite H. reflexivity. Qed.

(** X11: the three lookups agree.  When the inode [i] and a path
    [p] that does not end in ['/'] lead to the same entry, looking up
    a non-empty name without ['/'] under the inode is looking up the
    path [p/name]. *)
Theorem find_child_agrees_with_path h i p e name :
  name <> EmptyString ->
  has_slash name = false ->
  ends_with_slash p = false ->
  find_inode h i = Ok (Some e) ->
  find_path h p = Ok (Some e) ->
  find_child h i name = find_path h (p ++ String "/" name).
Proof.
  intros Hne Hns Hend Hino Hpath. unfold find_inode in Hino.
  rewrite (find_child_of_entry h i e name Hino).
  destruct p as [|c rest].
  - change (EmptyString ++ String "/" name) with (slashes 1 ++ name).
    rewrite find_path_root_component by assumption.
    unfold find_path in Hpath. simpl in Hpath.
    injection Hpath as ->. reflexivity.
  - rewrite find_path_app by (auto; discriminate).
    rewrite Hpath. cbn [bind].
    rewrite find_from_component by assumption. reflexivity.
Qed.

Lemma find_child_agrees_with_path_witness :
  find_child tree_h 2 "y" = find_path tree_h ("/x" ++ String "/" "y").
Proof.
  apply (find_child_agrees_with_path tree_h 2 "/x" (mk_entry 2 0 1) "y");
    try reflexivity. discriminate.
Defined.

(** X12: on an opened record whose entry-index fits an [int], looking
    up a non-empty name without ['/'] under the external inode of the
    root, [inode_offset], is looking up the path [/name]. *)
Theorem find_child_of_root meta off h name :
  metadata_v2_ctor meta off = Ok h ->
  Z.of_nat (List.length (entry_index meta)) <= INT_MAX ->
  name <> EmptyString ->
  has_slash name = false ->
  find_child h off name = find_path h (String "/" name).
Proof.
  intros Hc Hsize Hne Hns.
  destruct (ctor_inv _ _ _ Hc) as [k0 [Hk0 [Hr0 [Hm [Ho _]]]]].
  assert (Hlen : 0 < Z.of_nat (List.length (entry_index meta))).
  { apply at_Ok in Hk0. destruct Hk0 as [_ Hk0].
    assert ((Z.to_nat 0 < List.length (entry_index meta))%nat)
      by (apply nth_error_Some; congruence).
    lia. }
  assert (Hroot : get_entry h off = Ok (Some (root_ h))).
  { rewrite get_entry_in_range; rewrite ?Hm, ?Ho, ?Z.sub_diag; auto.
    - rewrite Hk0. cbn [bind]. rewrite Hr0. reflexivity.
    - lia. }
  rewrite (find_child_of_entry h off (root_ h) name Hroot).
  change (String "/" name) with (slashes 1 ++ name).
  rewrite find_path_root_component by assumption. reflexivity.
Qed.

Lemma find_child_of_root_witness :
  find_child tree_h 1 "x" = find_path tree_h "/x".
Proof.
  apply (find_child_of_root tree 1 tree_h "x"); try reflexivity.
  - simpl. unfold INT_MAX. lia.
  - discriminate.
Defined.

(** X13: under an inode outside the entry-index, a name is "not
    found"; no directory is read. *)
Theorem find_child_unknown_inode h i name :
  Z.of_nat (List.length (entry_index (meta_ h))) <= INT_MAX ->
  is_int (i - inode_offset_ h) = true ->
  ~ (0 <= i - inode_offset_ h
       < Z.of_nat (List.length (entry_index (meta_ h)))) ->
  find_child h i name = Ok None.
Proof.
  intros Hsize Hint Hout. unfold find_child.
  rewrite (get_entry_out_of_range h Hsize i Hint Hout). reflexivity.
Qed.

Lemma find_child_unknown_inode_witness :
  find_child tree_h 0 "x" = Ok None /\ find_child tree_h 6 "x" = Ok None.
Proof.
  split.
  - apply (find_child_unknown_inode tree_h 0 "x").
    + simpl. unfold INT_MAX. lia.
    + reflexivity.
    + simpl. lia.
  - apply (find_child_unknown_inode tree_h 6 "x").
    + simpl. unfold INT_MAX. lia.
    + reflexivity.
    + simpl. lia.
Defined.

(** X14: [find(int, name)] does not look at the type of the entry
    that the inode denotes.  When this entry has no record in the
    directories table (a regular file or a link of a well-formed
    record), the lookup reads outside that table instead of answering
    "not found". *)
Theorem find_child_under_non_directory h i e name :
  find_inode h i = Ok (Some e) ->
  ~ (0 <= inode e < Z.of_nat (List.length (directories (meta_ h)))) ->
  find_child h i name = Undefined (OutOfBounds T_directories).
Proof.
  intros Hino Hout. unfold find_inode in Hino.
  rewrite (find_child_of_entry h i e name Hino). unfold getdir.
  rewrite at_out_of_range by exact Hout. reflexivity.
Qed.

Lemma find_child_under_non_directory_witness :
  find_child tree_h 4 "x" = Undefined (OutOfBounds T_directories).
Proof.
  apply (find_child_under_non_directory tree_h 4 (mk_entry 1 1 3) "x").
  - reflexivity.
  - simpl. lia.
Defined.

Local Close Scope string_scope.

(** ** The tree walk, continued *)

Section Walk.

Variable h : metadata_v2_.
Context {St : Type}.
Variable func : entry -> St -> St.

Lemma walk_entry_step fuel e s :
  walk_entry h (S fuel) e func s =
    (let s1 := func e s in
     if S_ISDIR (mode e) then
       dir <- getdir h e ;;
       walk_loop h (fun c s' => walk_entry h fuel c func s')
                 (Z.to_nat (u32 (first_entry dir + entry_count dir)
                            - first_entry dir))
                 (first_entry dir) s1
     else Ok s1)%res.
Proof. reflexivity. Qed.

Lemma visit_all_app (a b : list entry) (s : St) :
  visit_all func (a ++ b) s = visit_all func b (visit_all func a s).
Proof. unfold visit_all. apply fold_left_app. Qed.

Lemma walk_loop_trace (rec : entry -> St -> Res St) :
  (forall c s s', rec c s = Ok s' ->
     exists vs, s' = visit_all func (c :: vs) s /\
                Forall (fun x => In x (entries (meta_ h))) vs) ->
  forall n cur s s',
    walk_loop h rec n cur s = Ok s' ->
    exists vs, s' = visit_all func vs s /\
               Forall (fun x => In x (entries (meta_ h))) vs.
Proof.
  intros Hrec. induction n as [|n IH]; intros cur s s' H; simpl in H.
  - inversion H; subst. exists []. split; [reflexivity | constructor].
  - apply bind_Ok in H. destruct H as [c [Hc H]].
    apply bind_Ok in H. destruct H as [s1 [Hs1 H]].
    destruct (Hrec c s s1 Hs1) as [vs1 [E1 F1]].
    destruct (IH (cur + 1) s1 s' H) as [vs2 [E2 F2]].
    exists ((c :: vs1) ++ vs2). split.
    + rewrite visit_all_app, <- E1. exact E2.
    + apply Forall_app. split; [|exact F2].
      constructor; [|exact F1].
      apply at_Ok in Hc. destruct Hc as [_ Hc].
      eapply nth_error_In; eauto.
Qed.

Lemma walk_entry_trace fuel : forall e s s',
  walk_entry h fuel e func s = Ok s' ->
  exists vs, s' = visit_all func (e :: vs) s /\
             Forall (fun x => In x (entries (meta_ h))) vs.
Proof.
  induction fuel as [|fuel IH]; intros e s s' H; [discriminate|].
  rewrite walk_entry_step in H. cbv zeta in H.
  destruct (S_ISDIR (mode e)).
  - apply bind_Ok in H. destruct H as [dir [_ H]].
    apply (walk_loop_trace _ IH) in H. destruct H as [vs [E F]].
    exists vs. split; [exact E | exact F].
  - inversion H; subst. exists []. split; [reflexivity | constructor].
Qed.


End Walk.

(** X15: what the visitor sees.  When [walk] returns, the visitor
    has been applied to the root first and after it only to entries
    read from the entries table, one after the other; the state that
    [walk] hands back is the one these calls produced. *)
Theorem walk_visits_root_first h (St : Type) (func : entry -> St -> St)
        fuel s s' :
  walk h fuel func s = Ok s' ->
  exists visited,
    s' = visit_all func (root_ h :: visited) s /\
    Forall (fun x => In x (entries (meta_ h))) visited.
Proof. unfold walk. apply walk_entry_trace. Qed.

Lemma walk_visits_root_first_witness :
  exists visited,
    [mk_entry 0 16384 0; mk_entry 1 0 1; mk_entry 2 0 2] =
      visit_all record_visit (root_ flat_h :: visited) [] /\
    Forall (fun x => In x (entries (meta_ flat_h))) visited.
Proof.
  apply (walk_visits_root_first flat_h (list entry) record_visit 2 []).
  reflexivity.
Defined.



(** ** Attributes, continued *)

Lemma mask_keeps md flag :
  0 <= flag < 2 ^ 16 ->
  Z.land flag write_bits = 0 ->
  Z.land (Z.land md READ_ONLY_MASK) flag = Z.land md flag.
Proof.
  intros Hflag Hdisj. apply Z.bits_inj'. intros n Hn.
  rewrite !Z.land_spec, READ_ONLY_MASK_value, Z.ldiff_spec.
  destruct (Z.testbit flag n) eqn:Hf; [|rewrite !andb_false_r; reflexivity].
  assert (Hlt : n < 16).
  { destruct (Z.lt_ge_cases n 16) as [|Hge]; [assumption|].
    rewrite (testbit_above_u16 flag n Hflag Hge) in Hf. discriminate. }
  assert (Hw : Z.testbit write_bits n = false).
  { pose proof (f_equal (fun z => Z.testbit z n) Hdisj) as Hb.
    cbv beta in Hb. rewrite Z.land_spec, Hf, Z.bits_0 in Hb. exact Hb. }
  rewrite Z.ones_spec_low by lia. rewrite Hw. simpl.
  rewrite !andb_true_r. reflexivity.
Qed.

Lemma mask_clears md flag :
  Z.land READ_ONLY_MASK flag = 0 ->
  has (Z.land md READ_ONLY_MASK) flag = false.
Proof.
  intros H. unfold has. rewrite <- Z.land_assoc, H, Z.land_0_r. reflexivity.
Qed.

Lemma getattr_mode h e stbuf rc out :
  getattr h e stbuf = Ok (rc, out) ->
  exists md, entry_mode h e = Ok md /\
             st_mode out = Z.land md READ_ONLY_MASK.
Proof.
  unfold getattr. intros H.
  apply bind_Ok in H. destruct H as [md [Hmd H]].
  apply bind_Ok in H. destruct H as [sz [_ H]].
  destruct (_ <=? INT64_MAX) in H; [|discriminate].
  inversion H; subst. exists md. split; [exact Hmd | reflexivity].
Qed.

(** X17: the mode that [getattr] exports differs from the stored
    mode word in the write bits only: every flag or field of the
    16-bit word that is disjoint from the three write bits reads the
    same in [st_mode], so the file type (directory, regular file,
    link) is the one of the entry. *)
Theorem getattr_keeps_other_bits h e stbuf rc out md :
  getattr h e stbuf = Ok (rc, out) ->
  entry_mode h e = Ok md ->
  (forall flag, 0 <= flag < 2 ^ 16 -> Z.land flag write_bits = 0 ->
                Z.land (st_mode out) flag = Z.land md flag) /\
  S_ISDIR (st_mode out) = S_ISDIR md /\
  S_ISREG (st_mode out) = S_ISREG md /\
  S_ISLNK (st_mode out) = S_ISLNK md.
Proof.
  intros Hget Hmd.
  destruct (getattr_mode _ _ _ _ _ Hget) as [md' [Hmd' Hst]].
  rewrite Hmd in Hmd'. injection Hmd' as <-.
  assert (Hfmt : Z.land (st_mode out) S_IFMT = Z.land md S_IFMT).
  { rewrite Hst. apply mask_keeps; [unfold S_IFMT; lia | reflexivity]. }
  split; [|split; [|split]].
  - intros flag Hflag Hdisj. rewrite Hst. apply mask_keeps; assumption.
  - unfold S_ISDIR. rewrite Hfmt. reflexivity.
  - unfold S_ISREG. rewrite Hfmt. reflexivity.
  - unfold S_ISLNK. rewrite Hfmt. reflexivity.
Qed.

Lemma getattr_keeps_other_bits_witness :
  S_ISLNK (st_mode (mk_stat 0 5 0 41325 0 0 0 4 0 1 0 0 0))
    = S_ISLNK mode_lnk /\
  Z.land (st_mode (mk_stat 0 5 0 41325 0 0 0 4 0 1 0 0 0)) S_IRUSR
    = Z.land mode_lnk S_IRUSR.
Proof.
  destruct (getattr_keeps_other_bits tree_h (mk_entry 4 2 4) zeroed 0
              (mk_stat 0 5 0 41325 0 0 0 4 0 1 0 0 0)
              mode_lnk eq_refl eq_refl) as [Hflag [_ [_ Hlnk]]].
  split; [exact Hlnk|].
  apply Hflag; [unfold S_IRUSR; lia | reflexivity].
Defined.

Lemma u16_land_mask m : u16 (Z.land m READ_ONLY_MASK) = Z.land m READ_ONLY_MASK.
Proof.
  unfold u16. rewrite <- Z.land_ones by lia.
  rewrite <- Z.land_assoc. reflexivity.
Qed.

Lemma has_masked m flag :
  0 <= flag < 2 ^ 16 ->
  Z.land flag write_bits = 0 ->
  has (Z.land m READ_ONLY_MASK) flag = has m flag.
Proof.
  intros Hflag Hdisj. unfold has. rewrite mask_keeps by assumption.
  reflexivity.
Qed.

Lemma type_tests_masked m :
  S_ISDIR (Z.land m READ_ONLY_MASK) = S_ISDIR m /\
  S_ISLNK (Z.land m READ_ONLY_MASK) = S_ISLNK m.
Proof.
  assert (H : Z.land (Z.land m READ_ONLY_MASK) S_IFMT = Z.land m S_IFMT)
    by (apply mask_keeps; [unfold S_IFMT; lia | reflexivity]).
  unfold S_ISDIR, S_ISLNK. rewrite H. split; reflexivity.
Qed.

(** X18: the mode string of an exported mode shows no write
    permission.  For the word that [getattr] puts in [st_mode], the
    dumper's rendering is the one of the stored mode word with the
    three w positions dashed; the indicators, r and x are unchanged. *)
Theorem modestring_of_exported_mode (md : Z) :
  modestring (Z.land (u16 md) READ_ONLY_MASK) =
    (indicators (u16 md) ++ rx (u16 md) S_IRUSR S_IXUSR
       ++ rx (u16 md) S_IRGRP S_IXGRP
       ++ rx (u16 md) S_IROTH S_IXOTH)%string.
Proof.
  unfold modestring. rewrite u16_land_mask.
  destruct (type_tests_masked (u16 md)) as [-> ->].
  rewrite (has_masked _ S_ISUID), (has_masked _ S_ISGID),
    (has_masked _ S_ISVTX), (has_masked _ S_IRUSR), (has_masked _ S_IXUSR),
    (has_masked _ S_IRGRP), (has_masked _ S_IXGRP), (has_masked _ S_IROTH),
    (has_masked _ S_IXOTH);
    try reflexivity; try (split; [discriminate | reflexivity]).
  rewrite (mask_clears _ S_IWUSR), (mask_clears _ S_IWGRP),
    (mask_clears _ S_IWOTH) by reflexivity.
  reflexivity.
Qed.

(** ** From an attribute record back to the entry *)




(** ** The dumper *)

Lemma callbacks_app a b : callbacks (a ++ b) = callbacks a ++ callbacks b.
Proof.
  induction a as [|ev a IH]; simpl; [reflexivity|].
  destruct ev; simpl; rewrite IH; reflexivity.
Qed.

Lemma callbacks_put text tr : callbacks (put text tr) = callbacks tr.
Proof. unfold put. rewrite callbacks_app. simpl. apply app_nil_r. Qed.

Section DumpFacts.

Variable h : metadata_v2_.

Lemma dump_entry_step fuel indent e tr :
  dump_entry h (S fuel) indent e tr =
    (md <- entry_mode h e ;;
     let ino := inode e in
     let tr := put (modestring md)
                 (put "> " (put (dec ino) (put "<inode:" (put indent tr)))) in
     tr <- (if 0 <? ino
            then n <- entry_name h e ;; Ok (put n (put " " tr))
            else Ok tr) ;;
     if S_ISREG md then
       b <- at_ T_chunk_index (chunk_index (meta_ h))
                (u32 (ino - chunk_index_offset_ h)) ;;
       let beg := u32 b in
       d <- at_ T_chunk_index (chunk_index (meta_ h))
                (u32 (u32 (ino - chunk_index_offset_ h) + 1)) ;;
       let end_ := u32 d in
       let tr := put "]" (put (dec end_)
                   (put ", " (put (dec beg) (put " [" tr)))) in
       sz <- file_size h e md ;;
       let tr := put nl (put (dec sz) (put " " tr)) in
       Ok (tr ++ [Callback (indent ++ "  ") ino])
     else if S_ISDIR md then
       dir <- at_ T_directories (directories (meta_ h)) ino ;;
       dump_dir h (fun ind c t => dump_entry h fuel ind c t)
                (indent ++ "  ") dir tr
     else if S_ISLNK md then
       l <- link_name h e ;;
       Ok (put nl (put l (put " -> " tr)))
     else Ok (put (" (unknown type)" ++ nl) tr))%res.
Proof. reflexivity. Qed.

(** The header of an entry, with or without its name, adds no call. *)
Lemma dump_header_callbacks e md indent tr tr1 :
  (if 0 <? inode e
   then n <- entry_name h e ;;
        Ok (put n (put " " (put (modestring md)
             (put "> " (put (dec (inode e))
                (put "<inode:" (put indent tr)))))))
   else Ok (put (modestring md)
             (put "> " (put (dec (inode e))
                (put "<inode:" (put indent tr))))))%res = Ok tr1 ->
  callbacks tr1 = callbacks tr.
Proof.
  destruct (0 <? inode e); intros H.
  - apply bind_Ok in H. destruct H as [n [_ H]]. inversion H; subst.
    rewrite !callbacks_put. reflexivity.
  - inversion H; subst. rewrite !callbacks_put. reflexivity.
Qed.

(** A regular file: its line, then its call. *)
Lemma dump_regular_callbacks fuel indent e tr tr' :
  regular_entry h e ->
  dump_entry h (S fuel) indent e tr = Ok tr' ->
  callbacks tr' = callbacks tr ++ [((indent ++ "  ")%string, inode e)].
Proof.
  intros [md [Hmd Hreg]] H. rewrite dump_entry_step in H.
  rewrite Hmd in H. cbn [bind] in H. cbv zeta in H.
  apply bind_Ok in H. destruct H as [tr1 [Hhead H]].
  apply dump_header_callbacks in Hhead.
  rewrite Hreg in H.
  apply bind_Ok in H. destruct H as [b [_ H]].
  apply bind_Ok in H. destruct H as [d [_ H]].
  apply bind_Ok in H. destruct H as [sz [_ H]].
  inversion H; subst. rewrite callbacks_app, !callbacks_put, Hhead.
  reflexivity.
Qed.

Lemma dump_loop_invariant
      (rec : string -> entry -> list event -> Res (list event))
      (P : string * Z -> Prop) :
  (forall ind c t t',
     In c (entries (meta_ h)) ->
     rec ind c t = Ok t' ->
     Forall P (callbacks t) -> Forall P (callbacks t')) ->
  forall indent first n i tr tr',
    dump_loop h rec indent first n i tr = Ok tr' ->
    Forall P (callbacks tr) -> Forall P (callbacks tr').
Proof.
  intros Hrec indent first.
  induction n as [|n IH]; intros i tr tr' H Htr; simpl in H.
  - inversion H; subst. exact Htr.
  - apply bind_Ok in H. destruct H as [c [Hc H]].
    apply bind_Ok in H. destruct H as [t1 [Ht1 H]].
    apply (IH (i + 1) t1 tr' H).
    apply (Hrec indent c tr t1); auto.
    apply at_Ok in Hc. destruct Hc as [_ Hc].
    eapply nth_error_In; eauto.
Qed.

(** The property of a call that the dumper keeps: its inode is the
    one of a regular file, the dumped entry or an entry of the table. *)
Lemma dump_entry_invariant (P : string * Z -> Prop) fuel :
  (forall ind c, In c (entries (meta_ h)) -> regular_entry h c ->
                 P (ind, inode c)) ->
  forall indent e tr tr',
    (regular_entry h e -> forall ind, P (ind, inode e)) ->
    dump_entry h fuel indent e tr = Ok tr' ->
    Forall P (callbacks tr) -> Forall P (callbacks tr').
Proof.
  intros Htable.
  induction fuel as [|fuel IH]; intros indent e tr tr' He H Htr;
    [discriminate|].
  rewrite dump_entry_step in H.
  apply bind_Ok in H. destruct H as [md [Hmd H]]. cbv zeta in H.
  apply bind_Ok in H. destruct H as [tr1 [Hhead H]].
  apply dump_header_callbacks in Hhead.
  destruct (S_ISREG md) eqn:Hreg.
  - apply bind_Ok in H. destruct H as [b [_ H]].
    apply bind_Ok in H. destruct H as [d [_ H]].
    apply bind_Ok in H. destruct H as [sz [_ H]].
    inversion H; subst. rewrite callbacks_app, !callbacks_put, Hhead.
    apply Forall_app. split; [exact Htr|].
    constructor; [|constructor]. apply He. exists md. auto.
  - destruct (S_ISDIR md).
    + apply bind_Ok in H. destruct H as [dir [_ H]].
      unfold dump_dir in H.
      eapply dump_loop_invariant; [|exact H|].
      * intros ind c t t' Hin Hrec Ht.
        apply (IH ind c t t'); auto.
      * rewrite !callbacks_put, Hhead. exact Htr.
    + destruct (S_ISLNK md).
      * apply bind_Ok in H. destruct H as [l [_ H]].
        inversion H; subst. rewrite !callbacks_put, Hhead. exact Htr.
      * inversion H; subst. rewrite callbacks_put, Hhead. exact Htr.
Qed.

End DumpFacts.

(** X20: the dumper calls [icb] for regular files only.  Every call
    that [dump] makes carries the inode of an entry, the root or one
    read from the entries table, whose stored mode word is that of a
    regular file. *)
Theorem dump_calls_back_for_regular_files h fuel tr' :
  dump h fuel [] = Ok tr' ->
  Forall (fun call =>
            exists e, (e = root_ h \/ In e (entries (meta_ h))) /\
                      inode e = snd call /\ regular_entry h e)
         (callbacks tr').
Proof.
  intros H. unfold dump in H.
  eapply (dump_entry_invariant h _ fuel); [| |exact H|constructor].
  - intros ind c Hin Hreg. exists c. auto.
  - intros Hreg ind. exists (root_ h). auto.
Qed.

Lemma dump_calls_back_for_regular_files_witness :
  Forall (fun call =>
            exists e, (e = root_ abc_h \/ In e (entries (meta_ abc_h))) /\
                      inode e = snd call /\ regular_entry abc_h e)
         [("    "%string, 1); ("    "%string, 2); ("    "%string, 3)].
Proof.
  assert (Hrun : exists tr, dump abc_h 2 [] = Ok tr /\
                   callbacks tr =
                   [("    "%string, 1); ("    "%string, 2); ("    "%string, 3)]).
  { eexists. split; reflexivity. }
  destruct Hrun as [tr [Hd Hc]]. rewrite <- Hc.
  exact (dump_calls_back_for_regular_files abc_h 2 tr Hd).
Defined.

Lemma dump_loop_regular h fuel indent first : forall n i tr tr',
  0 <= first + i ->
  Forall (regular_entry h)
         (firstn n (skipn (Z.to_nat (first + i)) (entries (meta_ h)))) ->
  dump_loop h (fun ind c t => dump_entry h (S fuel) ind c t)
            indent first n i tr = Ok tr' ->
  callbacks tr' =
    callbacks tr ++
    map (fun c => ((indent ++ "  ")%string, inode c))
        (firstn n (skipn (Z.to_nat (first + i)) (entries (meta_ h)))).
Proof.
  induction n as [|n IH]; intros i tr tr' Hpos Hreg H; simpl in H.
  - inversion H; subst. simpl. rewrite app_nil_r. reflexivity.
  - apply bind_Ok in H. destruct H as [c [Hc H]].
    apply bind_Ok in H. destruct H as [t1 [Ht1 H]].
    apply at_Ok in Hc. destruct Hc as [_ Hc].
    rewrite (skipn_nth_error _ _ _ Hc) in Hreg |- *.
    cbn [firstn map] in Hreg |- *.
    pose proof (Forall_inv Hreg) as Hc0.
    pose proof (Forall_inv_tail Hreg) as Hrest.
    replace (S (Z.to_nat (first + i))) with (Z.to_nat (first + (i + 1)))
      in Hrest |- * by lia.
    rewrite (IH (i + 1) t1 tr' ltac:(lia) Hrest H).
    rewrite (dump_regular_callbacks h fuel indent c tr t1 Hc0 Ht1).
    rewrite <- app_assoc. reflexivity.
Qed.

(** X21: in a directory of regular files the dumper calls [icb] once
    per child, in stored order.  When the dump of a directory entry
    (a directory by its stored mode word) returns and its children
    are regular files, the calls it added are those of the children,
    in the order of the entries table, each with the inode of the
    child and the indent of the entry deepened by four spaces. *)
Theorem dump_calls_back_in_stored_order h fuel indent e md dir tr tr' :
  entry_mode h e = Ok md ->
  S_ISDIR md = true ->
  getdir h e = Ok dir ->
  0 <= first_entry dir ->
  Forall (regular_entry h) (children (meta_ h) dir) ->
  dump_entry h (S (S fuel)) indent e tr = Ok tr' ->
  callbacks tr' =
    callbacks tr ++
    map (fun c => (((indent ++ "  ") ++ "  ")%string, inode c))
        (children (meta_ h) dir).
Proof.
  intros Hmd Hdir Hget Hfirst Hreg H.
  rewrite dump_entry_step in H. rewrite Hmd in H. cbn [bind] in H.
  cbv zeta in H.
  apply bind_Ok in H. destruct H as [tr1 [Hhead H]].
  apply dump_header_callbacks in Hhead.
  destruct (S_ISDIR_not_REG_LNK _ Hdir) as [Hnreg _].
  rewrite Hnreg, Hdir in H. unfold getdir in Hget. rewrite Hget in H.
  cbn [bind] in H. unfold dump_dir in H. unfold children in *.
  apply dump_loop_regular in H.
  - rewrite H, !callbacks_put, Hhead.
    rewrite Z.add_0_r. reflexivity.
  - lia.
  - rewrite Z.add_0_r. exact Hreg.
Qed.

Lemma dump_calls_back_in_stored_order_witness :
  exists tr,
    dump_entry abc_h 2 "" (root_ abc_h) [] = Ok tr /\
    callbacks tr =
      [("    "%string, 1); ("    "%string, 2); ("    "%string, 3)].
Proof.
  assert (Hrun : exists tr, dump_entry abc_h 2 "" (root_ abc_h) [] = Ok tr).
  { eexists. reflexivity. }
  destruct Hrun as [tr Hd]. exists tr. split; [exact Hd|].
  assert (Hreg : Forall (regular_entry abc_h)
                        (children (meta_ abc_h) (mk_directory 1 3))).
  { repeat constructor; exists mode_reg; split; reflexivity. }
  exact (dump_calls_back_in_stored_order abc_h 0 ""%string (root_ abc_h)
           mode_dir (mk_directory 1 3) [] tr eq_refl eq_refl eq_refl
           ltac:(simpl; lia) Hreg Hd).
Defined.

(** ** Empty components *)

Local Open Scope string_scope.

Lemma find_from_empty_component h e q :
  find_from h e (String "/" q) =
    (dir <- getdir h e ;;
     r <- find_dir h dir "" ;;
     match r with
     | None => Ok None
     | Some e' => find_from h e' q
     end)%res.
Proof. unfold find_from. reflexivity. Qed.

(** X22: a doubled ['/'] inside a path is a lookup of the empty
    name.  For a non-empty path [p] that does not end in ['/'],
    looking up [p//q] is looking up [p], then the empty name in the
    directory of the entry found, then [q] from there; the empty
    component is not skipped. *)
Theorem find_path_empty_component h p q :
  p <> EmptyString ->
  ends_with_slash p = false ->
  find_path h (p ++ String "/" (String "/" q)) =
    (r <- find_path h p ;;
     match r with
     | None => Ok None
     | Some e =>
         dir <- getdir h e ;;
         r' <- find_dir h dir "" ;;
         match r' with
         | None => Ok None
         | Some e' => find_from h e' q
         end
     end)%res.
Proof.
  intros Hne Hend. rewrite find_path_app by assumption.
  destruct (find_path h p) as [[e|]| |]; cbn [bind];
    [apply find_from_empty_component | reflexivity ..].
Qed.

Lemma find_path_empty_component_witness :
  find_path nested_h ("/a" ++ String "/" (String "/" "b")) =
    (r <- find_path nested_h "/a" ;;
     match r with
     | None => Ok None
     | Some e =>
         dir <- getdir nested_h e ;;
         r' <- find_dir nested_h dir "" ;;
         match r' with
         | None => Ok None
         | Some e' => find_from nested_h e' "b"
         end
     end)%res.
Proof.
  apply (find_path_empty_component nested_h "/a" "b");
    [discriminate | reflexivity].
Defined.

Local Close Scope string_scope.
